(** * A shallow embedding of [solver.js], a backtracking Sudoku solver

    The JavaScript module has five functions and one module-level variable:
    [isValidPlacement], [solveGrid], [gridPrimitiveToArray],
    [validateFullGrid], [getGridSolution] and the variable [gridPrimitive].

    Modelling choices.
    - A JavaScript value stored in a grid cell is a [value]: [undefined], a
      boolean, [NaN] or an integer number.  Numbers are restricted to
      integers (type [Z]); every claim is about cells in [0,9].
    - A grid is a list of rows, a row is a list of values.  Reading
      [grid[r][c]] outside the array yields [Undefined]; reading a column of
      a missing row raises a TypeError in JavaScript, which the embedding
      does not represent: all theorems are about 9x9 grids, where every read
      of the program is in range.
    - [solveGrid] mutates its argument and the variable [gridPrimitive]; the
      embedding threads both explicitly.  Its recursion is modelled with a
      bound on the depth of the call stack ([None] = bound exceeded), and the
      bound is proved sufficient.
    - Row and column indices are natural numbers; [Math.floor (row / 3)] is
      division on [nat]. *)

From Stdlib Require Import ZArith List String Ascii Bool Lia DecimalString DecimalPos.
From stdpp Require Import base option list.
Import ListNotations.

Local Open Scope Z_scope.

(** ** JavaScript values *)

Inductive value : Type :=
| Undefined
| Bool (b : bool)
| NaN
| Int (z : Z).

(** [a === b]: strict equality; [NaN] differs from itself. *)
Definition strict_eq (a b : value) : bool :=
  match a, b with
  | Undefined, Undefined => true
  | Bool x, Bool y => Bool.eqb x y
  | Int x, Int y => x =? y
  | _, _ => false
  end.

(** SameValueZero, the equality used by [Set]: as [===] but [NaN] equals
    itself. *)
Definition same_value_zero (a b : value) : bool :=
  match a, b with
  | NaN, NaN => true
  | _, _ => strict_eq a b
  end.

(** ** Grids *)

Abbreviation grid := (list (list value)).

(** [grid[r]], for iteration and indexing. *)
Definition row_of (g : grid) (r : nat) : list value :=
  match g !! r with
  | Some l => l
  | None => []
  end.

(** [grid[r][c]] *)
Definition cell (g : grid) (r c : nat) : value :=
  match row_of g r !! c with
  | Some v => v
  | None => Undefined
  end.

(** [grid[r][c] = v], for a cell that exists. *)
Definition place (g : grid) (r c : nat) (v : value) : grid :=
  alter (fun l => <[c := v]> l) r g.

(** Indices of a [for (let i = lo; i < lo + n; i++)] loop. *)
Definition range (lo n : nat) : list nat := seq lo n.

(** All coordinates in the order of the nested row and column loops. *)
Definition positions : list (nat * nat) :=
  flat_map (fun row => map (fun column => (row, column)) (range 0 9)) (range 0 9).

(** ** Well-formed grids: 9 rows of 9 cells with integer entries in [lo,hi] *)

Definition in_range (lo hi : Z) (v : value) : bool :=
  match v with
  | Int z => (lo <=? z) && (z <=? hi)
  | _ => false
  end.

Definition grid_ok (lo hi : Z) (g : grid) : bool :=
  (length g =? 9)%nat
  && forallb (fun l => (length l =? 9)%nat && forallb (in_range lo hi) l) g.

(** The input domain of the solver: cells in [0,9], 0 = empty. *)
Definition Grid09 (g : grid) : Prop := grid_ok 0 9 g = true.

(** A completely filled grid: cells in [1,9]. *)
Definition Grid19 (g : grid) : Prop := grid_ok 1 9 g = true.

(** ** [isValidPlacement] (solver.js, lines 8-43) *)

Definition isValidPlacement (g : grid) (number : value) (row column : nat) : bool :=
  (* the number is not in the row *)
  if existsb (fun numberInRow => strict_eq number numberInRow) (row_of g row)
  then false
  (* the number is not in the column *)
  else if existsb (fun i => strict_eq number (cell g i column)) (range 0 9)
  then false
  else
    let subgridRow := (row / 3)%nat in
    let subgridColumn := (column / 3)%nat in
    if existsb (fun tempRow =>
          existsb (fun tempColumn => strict_eq number (cell g tempRow tempColumn))
                  (range (subgridColumn * 3) 3))
         (range (subgridRow * 3) 3)
    then false
    else true.

(** ** The module variable and the state of a solve *)

(** The array [grid] the caller passed in, shared by all recursive calls, and
    the module-level variable [gridPrimitive] ([None] = [undefined]). *)
Record store : Type := Store {
  st_grid : grid;
  st_prim : option string
}.

(** ** [solveGrid] (solver.js, lines 57-86) *)

(** The nested [for] loops with [if (grid[row][column] === 0)]: the first
    coordinate, in row-major order, whose cell is strictly equal to 0. *)
Definition firstEmpty (g : grid) : option (nat * nat) :=
  find (fun '(row, column) => strict_eq (cell g row column) (Int 0)) positions.

(** [for (let numberToTry = 1; numberToTry < 10; numberToTry++)] *)
Definition numbersToTry : list Z := map Z.of_nat (range 1 9).

(** [`${grid}`]: [Array.prototype.toString], that is [join(",")] applied to
    the rows and, through [ToString] of each row, to the cells. *)
Definition valueToString (v : value) : string :=
  match v with
  | Undefined => ""          (* join prints undefined as the empty text *)
  | Bool true => "true"
  | Bool false => "false"
  | NaN => "NaN"
  | Int z => NilZero.string_of_int (Z.to_int z)
  end.

Fixpoint join (sep : string) (l : list string) : string :=
  match l with
  | [] => ""
  | [x] => x
  | x :: rest => x ++ sep ++ join sep rest
  end.

Definition gridToString (g : grid) : string :=
  join "," (map (fun l => join "," (map valueToString l)) g).

Section Trials.
(** The body of the loop over [numberToTry] at the cell [(row, column)];
    [recurse] is the recursive call [solveGrid(grid)]. *)
Variable recurse : store -> option (value * store).
Variables row column : nat.

Fixpoint tryNumbers (ns : list Z) (st : store) : option store :=
  match ns with
  | [] => Some st
  | numberToTry :: rest =>
      if isValidPlacement (st_grid st) (Int numberToTry) row column then
        (* grid[row][column] = numberToTry; solveGrid(grid) *)
        match recurse (Store (place (st_grid st) row column (Int numberToTry))
                             (st_prim st)) with
        | None => None
        | Some (_, st1) =>
            (* grid[row][column] = 0 *)
            tryNumbers rest (Store (place (st_grid st1) row column (Int 0))
                                   (st_prim st1))
        end
      else tryNumbers rest st
  end.
End Trials.

(** [solveGrid_depth d st]: the call [solveGrid(grid)] run with room for [d]
    nested frames; the first component of the result is the value the call
    returns.  [None] means that the frames ran out. *)
Fixpoint solveGrid_depth (depth : nat) (st : store) : option (value * store) :=
  match depth with
  | O => None
  | S d =>
      match firstEmpty (st_grid st) with
      | Some (row, column) =>
          match tryNumbers (solveGrid_depth d) row column numbersToTry st with
          | Some st' => Some (Undefined, st')              (* [return] *)
          | None => None
          end
      | None =>
          (* gridPrimitive = `${grid}`, then the function body ends *)
          Some (Undefined, Store (st_grid st) (Some (gridToString (st_grid st))))
      end
  end.

(** A 9x9 grid has 81 cells: at most 81 nested calls below the first one. *)
Definition max_depth : nat := 81.

Definition solveGrid (st : store) : option (value * store) :=
  solveGrid_depth (S max_depth) st.

(** ** [gridPrimitiveToArray] (solver.js, lines 94-110) *)

(** [string.split(',')] *)
Fixpoint split (sep : ascii) (s : string) : list string :=
  match s with
  | EmptyString => [EmptyString]
  | String c s' =>
      if Ascii.eqb c sep then EmptyString :: split sep s'
      else match split sep s' with
           | t :: ts => String c t :: ts
           | [] => [String c EmptyString]
           end
  end.

(** White space skipped by [parseInt] (the ASCII part of it). *)
Definition is_white (c : ascii) : bool :=
  let n := N_of_ascii c in
  ((9 <=? n) && (n <=? 13) || (n =? 32))%N.

Fixpoint trim_start (s : string) : string :=
  match s with
  | String c s' => if is_white c then trim_start s' else s
  | EmptyString => s
  end.

Definition digit_of (c : ascii) : option Z :=
  let n := Z.of_N (N_of_ascii c) in
  if (48 <=? n) && (n <=? 57) then Some (n - 48)
  else if (97 <=? n) && (n <=? 122) then Some (n - 87)
  else if (65 <=? n) && (n <=? 90) then Some (n - 55)
  else None.

(** The longest prefix of radix-[R] digits, as a number; [None] when the
    prefix is empty. *)
Fixpoint parse_digits (R : Z) (s : string) (acc : option Z) : option Z :=
  match s with
  | String c s' =>
      match digit_of c with
      | Some d =>
          if d <? R then parse_digits R s' (Some (R * default 0 acc + d))
          else acc
      | None => acc
      end
  | EmptyString => acc
  end.

(** [parseInt(s)] with no radix argument. *)
Definition parseInt (s : string) : value :=
  let s1 := trim_start s in
  let '(sign, s2) :=
    match s1 with
    | String "-" r => (-1, r)
    | String "+" r => (1, r)
    | _ => (1, s1)
    end in
  let '(R, s3) :=
    match s2 with
    | String "0" (String "x" r) => (16, r)
    | String "0" (String "X" r) => (16, r)
    | _ => (10, s2)
    end in
  match parse_digits R s3 None with
  | Some n => Int (sign * n)
  | None => NaN
  end.

(** [rawGridNumbers.shift()]: the removed first element ([None] =
    [undefined], on an empty array) and the remaining array. *)
Definition shift (raw : list string) : option string * list string :=
  (head raw, tail raw).

(** [parseInt(x)] for [x] a string or [undefined]; [undefined] is converted
    to the text "undefined". *)
Definition parseIntArg (x : option string) : value :=
  parseInt (default "undefined"%string x).

(** The inner loop: [n] times [tempArray.push(parseInt(rawGridNumbers.shift()))]. *)
Fixpoint fill_row (n : nat) (raw : list string) : list value * list string :=
  match n with
  | O => ([], raw)
  | S n' =>
      let '(x, raw1) := shift raw in
      let v := parseIntArg x in
      let '(tempArray, raw2) := fill_row n' raw1 in
      (v :: tempArray, raw2)
  end.

(** The outer loop: [n] times [sortedArray.push(tempArray)]. *)
Fixpoint fill_rows (n : nat) (raw : list string) : grid :=
  match n with
  | O => []
  | S n' =>
      let '(tempArray, raw1) := fill_row 9 raw in
      tempArray :: fill_rows n' raw1
  end.

Definition gridPrimitiveToArray (s : string) : grid :=
  fill_rows 9 (split "," s).

(** ** [validateFullGrid] (solver.js, lines 118-170) *)

(** [new Set(array)]: the distinct values of the array, in order of first
    occurrence, compared with SameValueZero. *)
Fixpoint set_add (x : value) (s : list value) : list value :=
  match s with
  | [] => [x]
  | y :: s' => if same_value_zero x y then s else y :: set_add x s'
  end.

Definition newSet (array : list value) : list value :=
  fold_left (fun s x => set_add x s) array [].

Definition validateFullGrid (g : grid) : bool :=
  (* each row holds 9 distinct values *)
  if negb (forallb (fun i => (length (newSet (row_of g i)) =? 9)%nat) (range 0 9))
  then false
  (* each column holds 9 distinct values *)
  else if negb (forallb (fun column =>
                  let tempArray := map (fun row => cell g row column) (range 0 9) in
                  (length (newSet tempArray) =? 9)%nat) (range 0 9))
  then false
  (* no cell is repeated in its subgrid *)
  else
    forallb (fun column =>
      forallb (fun row =>
        let subgridRow := (row / 3)%nat in
        let subgridColumn := (column / 3)%nat in
        forallb (fun tempRow =>
          forallb (fun tempColumn =>
            negb (strict_eq (cell g row column) (cell g tempRow tempColumn)
                  && (negb (row =? tempRow)%nat || negb (column =? tempColumn)%nat)))
            (range (subgridColumn * 3) 3))
          (range (subgridRow * 3) 3))
        (range 0 9))
      (range 0 9).

(** ** [getGridSolution] (solver.js, lines 176-189) *)

(** What the call returns: [false] or the array [solution]. *)
Inductive result : Type :=
| ReturnFalse
| ReturnGrid (solution : grid).

(** The effects of a call: the returned value, the caller's grid and the
    module variable after the call, and the line written to the console. *)
Record outcome : Type := Outcome {
  returned : result;
  final : store;
  console : list string
}.

(** [!gridPrimitive]: [undefined] and the empty text are falsy. *)
Definition is_falsy (p : option string) : bool :=
  match p with
  | None => true
  | Some EmptyString => true
  | Some _ => false
  end.

Definition getGridSolution (g : grid) (prim : option string) : option outcome :=
  match solveGrid (Store g prim) with
  | None => None
  | Some (_, st) =>
      if is_falsy (st_prim st) then
        Some (Outcome ReturnFalse st ["Sudoku solution could not be calculated."%string])
      else
        let solution := gridPrimitiveToArray (default ""%string (st_prim st)) in
        if validateFullGrid solution then Some (Outcome (ReturnGrid solution) st [])
        else
          Some (Outcome ReturnFalse st ["There are no valid solutions to this sudoku."%string])
  end.

(** ** Reference definitions for the statements *)

(** The empty cells of a grid, in row-major order. *)
Definition emptyCells (g : grid) : list (nat * nat) :=
  List.filter (fun '(row, column) => strict_eq (cell g row column) (Int 0)) positions.

(** All ways to fill the given cells in turn with digits that
    [isValidPlacement] accepts, in ascending-digit order at each cell. *)
Fixpoint fillings (cells : list (nat * nat)) (g : grid) : list grid :=
  match cells with
  | [] => [g]
  | (row, column) :: rest =>
      flat_map (fun n =>
                  if isValidPlacement g (Int n) row column
                  then fillings rest (place g row column (Int n))
                  else [])
               numbersToTry
  end.

(** The completed grids the search visits, in the order it visits them. *)
Definition completions (g : grid) : list grid := fillings (emptyCells g) g.

(** The first success of [attempt] over the digits [ns], in order. *)
Fixpoint first_success {A : Type} (attempt : Z -> option A) (ns : list Z) : option A :=
  match ns with
  | [] => None
  | n :: ns' =>
      match attempt n with
      | Some a => Some a
      | None => first_success attempt ns'
      end
  end.

(** The search of the specification (section 4.2): the first digit whose
    recursive call succeeds is kept and no further digit is tried; a digit
    whose recursive call fails is undone. *)
Fixpoint spec_fill (cells : list (nat * nat)) (g : grid) : option grid :=
  match cells with
  | [] => Some g
  | (row, column) :: rest =>
      first_success
        (fun n => if isValidPlacement g (Int n) row column
                  then spec_fill rest (place g row column (Int n))
                  else None)
        numbersToTry
  end.

Definition spec_solve (g : grid) : option grid := spec_fill (emptyCells g) g.

(** The module variable after the search has visited the grids [found], each
    visit overwriting it. *)
Definition record_all (prim : option string) (found : list grid) : option string :=
  fold_left (fun _ h => Some (gridToString h)) found prim.

(** The states of [gridPrimitive] a process can be in: unset when the module
    is loaded, then whatever earlier calls on well-formed grids left. *)
Inductive reachable : option string -> Prop :=
| reach_fresh : reachable None
| reach_call g prim out :
    reachable prim -> Grid09 g -> getGridSolution g prim = Some out ->
    reachable (st_prim (final out)).

(** Two different cells that share a row, a column or a subgrid. *)
Definition peers (p q : nat * nat) : bool :=
  negb ((p.1 =? q.1)%nat && (p.2 =? q.2)%nat)
  && ((p.1 =? q.1)%nat || (p.2 =? q.2)%nat
      || ((p.1 / 3 =? q.1 / 3)%nat && (p.2 / 3 =? q.2 / 3)%nat)).

(** No filled cell has a peer with the same value. *)
Definition conflict_free (g : grid) : bool :=
  forallb (fun p =>
    strict_eq (cell g p.1 p.2) (Int 0)
    || forallb (fun q => negb (peers p q && strict_eq (cell g p.1 p.2) (cell g q.1 q.2)))
               positions)
    positions.

(** The cells of a unit, as lists of values. *)
Definition column_of (g : grid) (c : nat) : list value :=
  map (fun r => cell g r c) (range 0 9).

Definition box_of (g : grid) (br bc : nat) : list value :=
  flat_map (fun r => map (fun c => cell g r c) (range (bc * 3) 3)) (range (br * 3) 3).

(** The coordinates of the cells of a subgrid, in the order of [box_of]. *)
Definition box_cells (br bc : nat) : list (nat * nat) :=
  flat_map (fun r => map (fun c => (r, c)) (range (bc * 3) 3)) (range (br * 3) 3).

(** Each row, each column, each subgrid holds 9 distinct values. *)
Definition rows_distinct (g : grid) : Prop :=
  forall i, (i < 9)%nat -> NoDup (row_of g i).

Definition columns_distinct (g : grid) : Prop :=
  forall j, (j < 9)%nat -> NoDup (column_of g j).

Definition boxes_distinct (g : grid) : Prop :=
  forall br bc, (br < 3)%nat -> (bc < 3)%nat -> NoDup (box_of g br bc).

(** The number of cells of a list that are strictly equal to [v]. *)
Definition occurrences (v : value) (l : list value) : nat :=
  length (List.filter (fun x => strict_eq v x) l).

(** Every digit from 1 to 9 occurs exactly once in the list. *)
Definition each_digit_once (l : list value) : Prop :=
  forall d, 1 <= d <= 9 -> occurrences (Int d) l = 1%nat.

(** A solved Sudoku: digits only, and each digit exactly once in every row,
    column and subgrid. *)
Definition is_solution (g : grid) : Prop :=
  Grid19 g /\
  (forall i, (i < 9)%nat -> each_digit_once (row_of g i)) /\
  (forall j, (j < 9)%nat -> each_digit_once (column_of g j)) /\
  (forall br bc, (br < 3)%nat -> (bc < 3)%nat -> each_digit_once (box_of g br bc)).

(** The value [v] occurs in row [r], in column [c], in the subgrid of the
    cell [(r, c)], whose origin is [(3 * (r / 3), 3 * (c / 3))]. *)
Definition in_row (g : grid) (v : value) (r : nat) : Prop :=
  exists j, (j < 9)%nat /\ cell g r j = v.

Definition in_column (g : grid) (v : value) (c : nat) : Prop :=
  exists i, (i < 9)%nat /\ cell g i c = v.

Definition in_box (g : grid) (v : value) (r c : nat) : Prop :=
  exists i j,
    (3 * (r / 3) <= i < 3 * (r / 3) + 3)%nat /\
    (3 * (c / 3) <= j < 3 * (c / 3) + 3)%nat /\ cell g i j = v.

(** The text [s] does not contain the character [sep]. *)
Fixpoint free_of (sep : ascii) (s : string) : bool :=
  match s with
  | EmptyString => true
  | String c s' => negb (Ascii.eqb c sep) && free_of sep s'
  end.

(** A cell that survives printing and parsing, and prints without comma. *)
Definition prints_back (v : value) : Prop :=
  parseInt (valueToString v) = v /\ free_of "," (valueToString v) = true.

(** The third loop of [validateFullGrid], as a statement on cells. *)
Definition box_check (g : grid) : Prop :=
  forall row column tempRow tempColumn,
    (row < 9)%nat -> (column < 9)%nat ->
    (row / 3 * 3 <= tempRow < row / 3 * 3 + 3)%nat ->
    (column / 3 * 3 <= tempColumn < column / 3 * 3 + 3)%nat ->
    cell g row column = cell g tempRow tempColumn ->
    row = tempRow /\ column = tempColumn.

(** What [gridPrimitive] can hold between calls: nothing, or the snapshot of
    a completed grid. *)
Definition snapshot_ok (prim : option string) : Prop :=
  prim = None \/ exists h, Grid19 h /\ prim = Some (gridToString h).

(** ** Sample grids *)

Definition digits (l : list Z) : list value := map Int l.

(** A solved Sudoku. *)
Definition solved : grid := map digits
  [ [5;3;4;6;7;8;9;1;2];
    [6;7;2;1;9;5;3;4;8];
    [1;9;8;3;4;2;5;6;7];
    [8;5;9;7;6;1;4;2;3];
    [4;2;6;8;5;3;7;9;1];
    [7;1;3;9;2;4;8;5;6];
    [9;6;1;5;3;7;2;8;4];
    [2;8;7;4;1;9;6;3;5];
    [3;4;5;2;8;6;1;7;9] ].

(** The same puzzle with four cells blanked: it has two completions, the
    grid [solved] and the one below. *)
Definition twoWays : grid :=
  place (place (place (place solved 0 3 (Int 0)) 0 4 (Int 0)) 3 3 (Int 0)) 3 4 (Int 0).

Definition solved' : grid :=
  place (place (place (place solved 0 3 (Int 7)) 0 4 (Int 6)) 3 3 (Int 6)) 3 4 (Int 7).

(** The solved puzzle with its centre cell blanked: one completion. *)
Definition oneBlank : grid := place solved 4 4 (Int 0).

(** A grid whose first cell admits no digit: 1 to 8 are in its row and 9 is
    in its column. *)
Definition stuck : grid := map digits
  [ [0;1;2;3;4;5;6;7;8];
    [9;0;0;0;0;0;0;0;0];
    [0;0;0;0;0;0;0;0;0];
    [0;0;0;0;0;0;0;0;0];
    [0;0;0;0;0;0;0;0;0];
    [0;0;0;0;0;0;0;0;0];
    [0;0;0;0;0;0;0;0;0];
    [0;0;0;0;0;0;0;0;0];
    [0;0;0;0;0;0;0;0;0] ].

(** ** Further reference definitions *)

(** Every filled cell of [g], within the 9x9 window, holds the same value in
    [h]. *)
Definition keeps_clues (g h : grid) : bool :=
  forallb (fun '(r, c) =>
             strict_eq (cell g r c) (Int 0) || same_value_zero (cell g r c) (cell h r c))
          positions.

(** 9 rows of 9 cells, whatever the cells hold. *)
Definition is9x9 (g : grid) : bool :=
  (length g =? 9)%nat && forallb (fun l => (length l =? 9)%nat) g.

(** The integers a JavaScript number holds exactly, and prints in plain
    decimal notation: absolute value at most 2^53 - 1. *)
Definition max_safe_integer : Z := 9007199254740991.

Definition GridInt (g : grid) : Prop :=
  grid_ok (- max_safe_integer) max_safe_integer g = true.

(** A 9x9 grid of numbers that are not digits. *)
Definition wide : grid := map digits
  [ [ 10;  -1; 250;   0;   7;  81; -36; 4096;   9];
    [  0;   0;   0;   0;   0;   0;   0;    0;   0];
    [ 11;  12;  13;  14;  15;  16;  17;   18;  19];
    [ -9;  -8;  -7;  -6;  -5;  -4;  -3;   -2;  -1];
    [100; 200; 300; 400; 500; 600; 700;  800; 900];
    [  1;   2;   3;   4;   5;   6;   7;    8;   9];
    [ 90;  80;  70;  60;  50;  40;  30;   20;  10];
    [9007199254740991; -9007199254740991; 0; 0; 0; 0; 0; 0; 0];
    [  5;   5;   5;   5;   5;   5;   5;    5;   5] ].

(** A grid with the clue 5 twice in its first row. *)
Definition clash : grid := place (place oneBlank 0 1 (Int 5)) 8 8 (Int 0).

(** The cells of any two peers differ. *)
Definition peers_differ (g : grid) : Prop :=
  forall p q, In p positions -> In q positions -> peers p q = true ->
    cell g p.1 p.2 <> cell g q.1 q.2.

(** * Properties *)

(** ** The embedding on small inputs *)

Example parseInt_digit : parseInt "7" = Int 7.
Proof. reflexivity. Qed.

Example parseInt_prefix : parseInt "  -12ab" = Int (-12).
Proof. reflexivity. Qed.

Example parseInt_hex : parseInt "0x1F" = Int 31.
Proof. reflexivity. Qed.

Example parseInt_undefined : parseIntArg None = NaN.
Proof. reflexivity. Qed.

Example split_commas : split "," "1,,23" = ["1"; ""; "23"]%string.
Proof. reflexivity. Qed.

Example join_row : join "," (map valueToString (digits [4; 0; 9])) = "4,0,9"%string.
Proof. reflexivity. Qed.

Example newSet_repeats : newSet (digits [1; 2; 1; 3; 2]) = digits [1; 2; 3].
Proof. reflexivity. Qed.

Example firstEmpty_twoWays : firstEmpty twoWays = Some (0%nat, 3%nat).
Proof. reflexivity. Qed.

Example completions_twoWays : completions twoWays = [solved; solved'].
Proof. vm_compute. reflexivity. Qed.

Example validateFullGrid_solved : validateFullGrid solved = true.
Proof. vm_compute. reflexivity. Qed.

Example validateFullGrid_repeat : validateFullGrid (place solved 0 0 (Int 3)) = false.
Proof. vm_compute. reflexivity. Qed.

(** ** Values *)

Lemma strict_eq_Int z v : strict_eq (Int z) v = true <-> v = Int z.
Proof.
  destruct v; simpl; split; try discriminate.
  - intros H. apply Z.eqb_eq in H. congruence.
  - intros H. injection H as ->. apply Z.eqb_refl.
Qed.

Lemma strict_eq_Int_r z v : strict_eq v (Int z) = true <-> v = Int z.
Proof.
  destruct v; simpl; split; try discriminate.
  - intros H. apply Z.eqb_eq in H. congruence.
  - intros H. injection H as ->. apply Z.eqb_refl.
Qed.

Lemma same_value_zero_eq a b : same_value_zero a b = true <-> a = b.
Proof.
  destruct a, b; simpl; split; try discriminate; try reflexivity.
  - intros H. apply Bool.eqb_prop in H. congruence.
  - intros H. injection H as ->. apply Bool.eqb_reflx.
  - intros H. apply Z.eqb_eq in H. congruence.
  - intros H. injection H as ->. apply Z.eqb_refl.
Qed.

Lemma in_range_spec lo hi v :
  in_range lo hi v = true <-> exists z, v = Int z /\ lo <= z <= hi.
Proof.
  destruct v; simpl; split; try discriminate.
  - intros (z & Hz & _); discriminate.
  - intros (z & Hz & _); discriminate.
  - intros (z & Hz & _); discriminate.
  - intros H. apply andb_true_iff in H as [H1 H2].
    exists z. split; [reflexivity | lia].
  - intros (z' & Hz & Hb). injection Hz as ->.
    apply andb_true_iff. split; lia.
Qed.

Lemma in_range_weaken lo hi lo' hi' v :
  lo' <= lo -> hi <= hi' -> in_range lo hi v = true -> in_range lo' hi' v = true.
Proof.
  intros Hlo Hhi H. apply in_range_spec in H as (z & -> & Hz).
  apply in_range_spec. exists z. split; [reflexivity | lia].
Qed.

(** ** Reading and writing cells *)

Lemma cell_lookup (g : grid) r c l :
  g !! r = Some l -> cell g r c = match l !! c with Some v => v | None => Undefined end.
Proof. intros H. unfold cell, row_of. rewrite H. reflexivity. Qed.

Lemma cell_defined (g : grid) r c v :
  cell g r c = v -> v <> Undefined ->
  exists l, g !! r = Some l /\ l !! c = Some v.
Proof.
  unfold cell, row_of. intros H Hv.
  destruct (g !! r) as [l|] eqn:Hr.
  - exists l. split; [reflexivity|].
    destruct (l !! c) eqn:Hc; congruence.
  - rewrite lookup_nil in H. congruence.
Qed.

Lemma row_of_place_eq (g : grid) r c v :
  row_of (place g r c v) r = <[c := v]> (row_of g r).
Proof.
  unfold row_of, place. rewrite list_lookup_alter_eq.
  destruct (g !! r); reflexivity.
Qed.

Lemma row_of_place_ne (g : grid) r c v r' :
  r <> r' -> row_of (place g r c v) r' = row_of g r'.
Proof.
  intros H. unfold row_of, place. rewrite list_lookup_alter_ne by exact H.
  reflexivity.
Qed.

Lemma cell_place_ne (g : grid) r c v r' c' :
  (r, c) <> (r', c') -> cell (place g r c v) r' c' = cell g r' c'.
Proof.
  intros H. unfold cell.
  destruct (decide (r = r')) as [->|Hr].
  - rewrite row_of_place_eq. rewrite list_lookup_insert_ne; [reflexivity|].
    intros ->. apply H. reflexivity.
  - rewrite row_of_place_ne by exact Hr. reflexivity.
Qed.

Lemma cell_place_eq (g : grid) r c v :
  (c < length (row_of g r))%nat -> cell (place g r c v) r c = v.
Proof.
  intros H. unfold cell. rewrite row_of_place_eq.
  rewrite list_lookup_insert_eq by exact H. reflexivity.
Qed.

Lemma place_same (g : grid) r c v :
  cell g r c = v -> v <> Undefined -> place g r c v = g.
Proof.
  intros H Hv. destruct (cell_defined g r c v H Hv) as (l & Hr & Hc).
  unfold place. apply list_eq. intros i.
  destruct (decide (r = i)) as [->|Hi].
  - rewrite list_lookup_alter_eq, Hr. simpl.
    rewrite list_insert_id by exact Hc. reflexivity.
  - rewrite list_lookup_alter_ne by exact Hi. reflexivity.
Qed.

Lemma place_place (g : grid) r c v w :
  place (place g r c v) r c w = place g r c w.
Proof.
  unfold place. rewrite list_alter_alter_eq.
  apply list_alter_ext; [|reflexivity].
  intros l _. simpl. apply list_insert_insert_eq.
Qed.

(** Undoing a trial: writing a digit into an empty cell and writing 0 back
    restores the grid. *)
Lemma place_undo (g : grid) r c v :
  cell g r c = Int 0 -> place (place g r c v) r c (Int 0) = g.
Proof.
  intros H. rewrite place_place. apply place_same; [exact H | discriminate].
Qed.

(** ** Shape of a grid *)

Lemma grid_ok_spec lo hi (g : grid) :
  grid_ok lo hi g = true <->
  length g = 9%nat /\
  forall l, In l g -> length l = 9%nat /\ forall v, In v l -> in_range lo hi v = true.
Proof.
  unfold grid_ok. rewrite andb_true_iff, Nat.eqb_eq, forallb_forall.
  split; intros [H1 H2]; (split; [exact H1|]); intros l Hl.
  - specialize (H2 l Hl). apply andb_true_iff in H2 as [Ha Hb].
    apply Nat.eqb_eq in Ha. rewrite forallb_forall in Hb. auto.
  - destruct (H2 l Hl) as [Ha Hb]. apply andb_true_iff.
    split; [apply Nat.eqb_eq; exact Ha | apply forallb_forall; exact Hb].
Qed.

Lemma grid_ok_weaken lo hi lo' hi' (g : grid) :
  lo' <= lo -> hi <= hi' -> grid_ok lo hi g = true -> grid_ok lo' hi' g = true.
Proof.
  intros Hlo Hhi H. apply grid_ok_spec in H as [H1 H2]. apply grid_ok_spec.
  split; [exact H1|]. intros l Hl. destruct (H2 l Hl) as [Ha Hb].
  split; [exact Ha|]. intros v Hv. eapply in_range_weaken; eauto.
Qed.

Lemma grid_ok_row lo hi (g : grid) r :
  grid_ok lo hi g = true -> (r < 9)%nat ->
  g !! r = Some (row_of g r) /\ length (row_of g r) = 9%nat /\
  forall v, In v (row_of g r) -> in_range lo hi v = true.
Proof.
  intros H Hr. apply grid_ok_spec in H as [H1 H2].
  destruct (lookup_lt_is_Some_2 g r) as [l Hl]; [lia|].
  unfold row_of. rewrite Hl. split; [reflexivity|].
  apply H2. apply list_elem_of_In. eapply list_elem_of_lookup_2; eauto.
Qed.

Lemma grid_ok_cell lo hi (g : grid) r c :
  grid_ok lo hi g = true -> (r < 9)%nat -> (c < 9)%nat ->
  row_of g r !! c = Some (cell g r c) /\ in_range lo hi (cell g r c) = true.
Proof.
  intros H Hr Hc. destruct (grid_ok_row lo hi g r H Hr) as (_ & Hlen & Hin).
  destruct (lookup_lt_is_Some_2 (row_of g r) c) as [v Hv]; [lia|].
  unfold cell. rewrite Hv. split; [reflexivity|].
  apply Hin. apply list_elem_of_In. eapply list_elem_of_lookup_2; eauto.
Qed.

Lemma grid_ok_place lo hi (g : grid) r c v :
  grid_ok lo hi g = true -> in_range lo hi v = true ->
  grid_ok lo hi (place g r c v) = true.
Proof.
  intros H Hv. apply grid_ok_spec in H as [H1 H2]. apply grid_ok_spec.
  unfold place. rewrite length_alter. split; [exact H1|].
  intros l Hl. apply list_elem_of_In, list_elem_of_lookup in Hl as [i Hi].
  destruct (decide (r = i)) as [->|Hne].
  - rewrite list_lookup_alter_eq in Hi.
    destruct (g !! i) as [l0|] eqn:Hg; [|discriminate].
    simpl in Hi. injection Hi as <-.
    assert (Hl0 : In l0 g).
    { apply list_elem_of_In. eapply list_elem_of_lookup_2; eauto. }
    destruct (H2 l0 Hl0) as [Ha Hb]. rewrite length_insert.
    split; [exact Ha|]. intros w Hw.
    apply list_elem_of_In, list_elem_of_lookup in Hw as [j Hj].
    apply list_lookup_insert_Some in Hj as [(_ & <- & _) | (_ & Hj)].
    + exact Hv.
    + apply Hb. apply list_elem_of_In. eapply list_elem_of_lookup_2; eauto.
  - rewrite list_lookup_alter_ne in Hi by exact Hne.
    apply H2. apply list_elem_of_In. eapply list_elem_of_lookup_2; eauto.
Qed.

(** ** The scan for the first empty cell *)

Lemma positions_spec r c : In (r, c) positions <-> (r < 9)%nat /\ (c < 9)%nat.
Proof.
  unfold positions, range. rewrite in_flat_map. split.
  - intros (r' & Hr & Hc). apply in_map_iff in Hc as (c' & Heq & Hc).
    injection Heq as -> ->. apply in_seq in Hr, Hc. lia.
  - intros [Hr Hc]. exists r. split; [apply in_seq; lia|].
    apply in_map_iff. exists c. split; [reflexivity | apply in_seq; lia].
Qed.

Lemma positions_NoDup : NoDup positions.
Proof. apply (bool_decide_unpack _). vm_compute. reflexivity. Qed.

Lemma positions_length : length positions = 81%nat.
Proof. reflexivity. Qed.

Section Filter.
Context {A : Type}.

Lemma find_head_filter (p : A -> bool) l : find p l = head (List.filter p l).
Proof.
  induction l as [|a l IH]; simpl; [reflexivity|].
  destruct (p a); [reflexivity | exact IH].
Qed.

(** Switching the predicate off at the first hit removes that hit only. *)
Lemma filter_drop_first (p p' : A -> bool) l x rest :
  NoDup l -> List.filter p l = x :: rest ->
  p' x = false -> (forall y, y <> x -> p' y = p y) ->
  List.filter p' l = rest.
Proof.
  intros Hnd. revert rest. induction Hnd as [|a l Ha Hnd IH]; intros rest Hf Hx Hy.
  - discriminate.
  - simpl in Hf. simpl. destruct (p a) eqn:Hpa.
    + injection Hf as -> <-. rewrite Hx.
      apply List.filter_ext_in. intros y Hin. apply Hy.
      intros ->. apply Ha. apply list_elem_of_In. exact Hin.
    + assert (Hne : a <> x).
      { intros ->.
        assert (Hin : In x (List.filter p l)) by (rewrite Hf; left; reflexivity).
        apply List.filter_In in Hin as [_ Hpx]. congruence. }
      rewrite (Hy a Hne), Hpa. apply IH; assumption.
Qed.
End Filter.

Lemma firstEmpty_emptyCells g : firstEmpty g = head (emptyCells g).
Proof. unfold firstEmpty, emptyCells. apply find_head_filter. Qed.

Lemma emptyCells_In g r c :
  In (r, c) (emptyCells g) <-> (r < 9)%nat /\ (c < 9)%nat /\ cell g r c = Int 0.
Proof.
  unfold emptyCells. rewrite List.filter_In, positions_spec, strict_eq_Int_r.
  tauto.
Qed.

Lemma emptyCells_head g r c rest :
  emptyCells g = (r, c) :: rest -> (r < 9)%nat /\ (c < 9)%nat /\ cell g r c = Int 0.
Proof.
  intros H. apply emptyCells_In. rewrite H. left. reflexivity.
Qed.

Lemma emptyCells_length g : (length (emptyCells g) <= 81)%nat.
Proof.
  unfold emptyCells. rewrite <- positions_length. apply List.filter_length_le.
Qed.

(** Filling the first empty cell with a non-zero value leaves the other
    empty cells, in the same order. *)
Lemma emptyCells_place g r c rest v :
  emptyCells g = (r, c) :: rest -> strict_eq v (Int 0) = false ->
  emptyCells (place g r c v) = rest.
Proof.
  intros H Hv. destruct (emptyCells_head g r c rest H) as (_ & _ & Hz).
  destruct (cell_defined g r c (Int 0) Hz) as (l & Hr & Hc); [discriminate|].
  unfold emptyCells in *.
  eapply filter_drop_first; [apply positions_NoDup | exact H | |].
  - simpl. rewrite cell_place_eq; [exact Hv|].
    unfold row_of. rewrite Hr. eapply lookup_lt_Some; eauto.
  - intros [r' c'] Hne. rewrite cell_place_ne; [reflexivity|]. congruence.
Qed.

Lemma numbersToTry_spec n : In n numbersToTry <-> 1 <= n <= 9.
Proof.
  unfold numbersToTry, range. rewrite in_map_iff. split.
  - intros (k & <- & Hk). apply in_seq in Hk. lia.
  - intros Hn. exists (Z.to_nat n). split; [lia | apply in_seq; lia].
Qed.

(** ** What a call of [solveGrid] does *)

Lemma record_all_app prim l1 l2 :
  record_all prim (l1 ++ l2) = record_all (record_all prim l1) l2.
Proof. unfold record_all. apply fold_left_app. Qed.

Lemma record_all_last prim found :
  record_all prim found =
  match last found with
  | Some h => Some (gridToString h)
  | None => prim
  end.
Proof.
  revert prim. induction found as [|h found IH]; intros prim; [reflexivity|].
  change (record_all prim (h :: found))
    with (record_all (Some (gridToString h)) found).
  rewrite IH. destruct found as [|h' found']; [reflexivity|].
  change (last (h :: h' :: found')) with (last (h' :: found')).
  destruct (last (h' :: found')) eqn:Hl; [reflexivity|].
  apply last_None in Hl. discriminate.
Qed.

(** The loop over the digits, given what the recursive calls do. *)
Lemma tryNumbers_spec recurse row column g rest :
  emptyCells g = (row, column) :: rest ->
  (forall n prim, 1 <= n <= 9 ->
     recurse (Store (place g row column (Int n)) prim) =
     Some (Undefined,
           Store (place g row column (Int n))
                 (record_all prim (fillings rest (place g row column (Int n)))))) ->
  forall ns prim, (forall n, In n ns -> 1 <= n <= 9) ->
  tryNumbers recurse row column ns (Store g prim) =
  Some (Store g (record_all prim
     (flat_map (fun n => if isValidPlacement g (Int n) row column
                         then fillings rest (place g row column (Int n))
                         else []) ns))).
Proof.
  intros Hcells Hrec. destruct (emptyCells_head _ _ _ _ Hcells) as (_ & _ & Hz).
  induction ns as [|n ns IH]; intros prim Hns; [reflexivity|].
  simpl. destruct (isValidPlacement g (Int n) row column).
  - rewrite Hrec by (apply Hns; left; reflexivity). simpl.
    rewrite place_undo by exact Hz. rewrite record_all_app.
    apply IH. intros m Hm. apply Hns. right. exact Hm.
  - simpl. apply IH. intros m Hm. apply Hns. right. exact Hm.
Qed.

Lemma solveGrid_depth_S d st :
  solveGrid_depth (S d) st =
  match firstEmpty (st_grid st) with
  | Some (row, column) =>
      match tryNumbers (solveGrid_depth d) row column numbersToTry st with
      | Some st' => Some (Undefined, st')
      | None => None
      end
  | None => Some (Undefined, Store (st_grid st) (Some (gridToString (st_grid st))))
  end.
Proof. reflexivity. Qed.

(** A call with enough frames returns [undefined], leaves the grid as it
    found it, and has overwritten [gridPrimitive] once per completed grid. *)
Lemma solveGrid_depth_spec d :
  forall g prim, (length (emptyCells g) < d)%nat ->
  solveGrid_depth d (Store g prim) =
  Some (Undefined, Store g (record_all prim (completions g))).
Proof.
  induction d as [|d IH]; intros g prim Hd; [lia|].
  rewrite solveGrid_depth_S. cbn [st_grid st_prim].
  rewrite firstEmpty_emptyCells. unfold completions.
  destruct (emptyCells g) as [|[row column] rest] eqn:Hcells; [reflexivity|].
  cbn [head fillings].
  erewrite tryNumbers_spec; [reflexivity | exact Hcells | | ].
  - intros n prim' Hn.
    assert (Hrest : emptyCells (place g row column (Int n)) = rest).
    { eapply emptyCells_place; [exact Hcells|]. simpl. apply Z.eqb_neq. lia. }
    rewrite IH by (rewrite Hrest; simpl in Hd; lia).
    unfold completions. rewrite Hrest. reflexivity.
  - intros n. apply numbersToTry_spec.
Qed.

Lemma solveGrid_spec g prim :
  solveGrid (Store g prim) =
  Some (Undefined, Store g (record_all prim (completions g))).
Proof.
  apply solveGrid_depth_spec. pose proof (emptyCells_length g).
  unfold max_depth. lia.
Qed.

(** ** The completed grids *)

(** A property kept by every accepted placement holds of every completed
    grid, and a completed grid has no empty cell. *)
Lemma fillings_invariant (P : grid -> Prop) :
  (forall g r c n, P g -> (r < 9)%nat -> (c < 9)%nat -> cell g r c = Int 0 ->
     1 <= n <= 9 -> isValidPlacement g (Int n) r c = true ->
     P (place g r c (Int n))) ->
  forall cells g h, emptyCells g = cells -> P g -> In h (fillings cells g) ->
  P h /\ emptyCells h = [].
Proof.
  intros Hstep. induction cells as [|[r c] rest IH]; intros g h Hcells Hg Hh.
  - simpl in Hh. destruct Hh as [<-|[]]. split; assumption.
  - cbn [fillings] in Hh. apply in_flat_map in Hh as (n & Hn & Hh).
    apply numbersToTry_spec in Hn.
    destruct (isValidPlacement g (Int n) r c) eqn:Hvalid; [|destruct Hh].
    destruct (emptyCells_head _ _ _ _ Hcells) as (Hr & Hc & Hz).
    apply (IH (place g r c (Int n)) h).
    + eapply emptyCells_place; [exact Hcells|]. simpl. apply Z.eqb_neq. lia.
    + apply Hstep; assumption.
    + exact Hh.
Qed.

Lemma completions_full g h :
  Grid09 g -> In h (completions g) -> Grid19 h.
Proof.
  intros Hg Hh.
  destruct (fillings_invariant Grid09) with (cells := emptyCells g) (g := g) (h := h)
    as [H09 Hfull]; try assumption; try reflexivity.
  { intros g' r c n Hg' _ _ _ Hn _. apply grid_ok_place; [exact Hg'|].
    apply in_range_spec. exists n. split; [reflexivity | lia]. }
  apply grid_ok_spec in H09 as [Hlen Hrows]. apply grid_ok_spec.
  split; [exact Hlen|]. intros l Hl. destruct (Hrows l Hl) as [Hl9 Hcellsl].
  split; [exact Hl9|]. intros v Hv.
  apply list_elem_of_In, list_elem_of_lookup in Hl as [r Hr].
  apply list_elem_of_In, list_elem_of_lookup in Hv as [c Hc].
  assert (Hr9 : (r < 9)%nat) by (apply lookup_lt_Some in Hr; lia).
  assert (Hc9 : (c < 9)%nat) by (apply lookup_lt_Some in Hc; lia).
  assert (Hcell : cell h r c = v) by (rewrite (cell_lookup h r c l Hr), Hc; reflexivity).
  assert (Hv09 : in_range 0 9 v = true).
  { apply Hcellsl. apply list_elem_of_In. eapply list_elem_of_lookup_2; eauto. }
  apply in_range_spec in Hv09 as (z & -> & Hz). apply in_range_spec.
  exists z. split; [reflexivity|].
  assert (z <> 0); [|lia]. intros ->.
  assert (Hin : In (r, c) (emptyCells h)) by (apply emptyCells_In; auto).
  rewrite Hfull in Hin. destruct Hin.
Qed.

(** The search never touches a cell that was filled in the input. *)
Lemma completions_clues g h r c :
  In h (completions g) -> cell g r c <> Int 0 -> cell h r c = cell g r c.
Proof.
  intros Hh Hclue.
  destruct (fillings_invariant
              (fun g' => forall r c, cell g r c <> Int 0 -> cell g' r c = cell g r c))
    with (cells := emptyCells g) (g := g) (h := h) as [H _];
    try assumption; try reflexivity; auto.
  intros g' r' c' n Hg' _ _ Hz _ _ r0 c0 H0.
  rewrite cell_place_ne; [apply Hg'; exact H0|].
  intros Heq. injection Heq as -> ->. apply H0. rewrite <- Hz. symmetry.
  apply Hg'. exact H0.
Qed.

(** The search of the specification returns the first completed grid. *)
Lemma spec_fill_head cells : forall g, spec_fill cells g = head (fillings cells g).
Proof.
  induction cells as [|[r c] rest IH]; intros g; [reflexivity|].
  cbn [spec_fill fillings]. induction numbersToTry as [|n ns IHns]; [reflexivity|].
  cbn [flat_map first_success]. destruct (isValidPlacement g (Int n) r c).
  - rewrite IH. destruct (fillings rest (place g r c (Int n))); [exact IHns | reflexivity].
  - exact IHns.
Qed.

Lemma spec_solve_head g : spec_solve g = head (completions g).
Proof. apply spec_fill_head. Qed.

Lemma flat_map_agree {A B : Type} (f f' : A -> list B) l :
  (forall a, In a l -> f a = f' a) -> flat_map f l = flat_map f' l.
Proof.
  induction l as [|a l IH]; intros H; [reflexivity|].
  cbn [flat_map]. rewrite (H a (or_introl eq_refl)).
  rewrite IH; [reflexivity|]. intros b Hb. apply H. right. exact Hb.
Qed.

(** The two reference searches rescan the grid as the program does: they
    work on the first empty cell of the grid at hand. *)
Lemma completions_step g :
  completions g =
  match firstEmpty g with
  | None => [g]
  | Some (row, column) =>
      flat_map (fun n => if isValidPlacement g (Int n) row column
                         then completions (place g row column (Int n))
                         else [])
               numbersToTry
  end.
Proof.
  rewrite firstEmpty_emptyCells. unfold completions.
  destruct (emptyCells g) as [|[row column] rest] eqn:Hcells; [reflexivity|].
  cbn [head fillings]. apply flat_map_agree. intros n Hn.
  apply numbersToTry_spec in Hn.
  rewrite (emptyCells_place g row column rest (Int n) Hcells); [reflexivity|].
  simpl. apply Z.eqb_neq. lia.
Qed.

Lemma first_success_ext {A : Type} (f f' : Z -> option A) ns :
  (forall n, In n ns -> f n = f' n) -> first_success f ns = first_success f' ns.
Proof.
  induction ns as [|n ns IH]; intros H; [reflexivity|].
  cbn [first_success]. rewrite (H n (or_introl eq_refl)).
  rewrite IH; [reflexivity|]. intros m Hm. apply H. right. exact Hm.
Qed.

Lemma spec_solve_step g :
  spec_solve g =
  match firstEmpty g with
  | None => Some g
  | Some (row, column) =>
      first_success
        (fun n => if isValidPlacement g (Int n) row column
                  then spec_solve (place g row column (Int n))
                  else None)
        numbersToTry
  end.
Proof.
  rewrite firstEmpty_emptyCells. unfold spec_solve.
  destruct (emptyCells g) as [|[row column] rest] eqn:Hcells; [reflexivity|].
  cbn [head spec_fill]. apply first_success_ext. intros n Hn.
  apply numbersToTry_spec in Hn.
  rewrite (emptyCells_place g row column rest (Int n) Hcells); [reflexivity|].
  simpl. apply Z.eqb_neq. lia.
Qed.

(** ** Printing a grid and reading it back *)

Lemma split_free sep t : free_of sep t = true -> split sep t = [t].
Proof.
  induction t as [|c t IH]; simpl; [reflexivity|].
  intros H. apply andb_true_iff in H as [Hc Ht].
  apply negb_true_iff in Hc. rewrite Hc, (IH Ht). reflexivity.
Qed.

Lemma split_app_sep sep t rest :
  free_of sep t = true ->
  split sep (t ++ String sep rest) = t :: split sep rest.
Proof.
  induction t as [|c t IH]; simpl.
  - intros _. rewrite Ascii.eqb_refl. reflexivity.
  - intros H. apply andb_true_iff in H as [Hc Ht].
    apply negb_true_iff in Hc. rewrite Hc, (IH Ht). reflexivity.
Qed.

Lemma join_cons2 sep x y rest :
  join sep (x :: y :: rest) = (x ++ sep ++ join sep (y :: rest))%string.
Proof. reflexivity. Qed.

Lemma split_join sep tokens :
  tokens <> [] -> Forall (fun t => free_of sep t = true) tokens ->
  split sep (join (String sep EmptyString) tokens) = tokens.
Proof.
  induction tokens as [|x [|y rest] IH]; intros Hne Hfree.
  - congruence.
  - simpl. apply split_free. inversion Hfree; assumption.
  - rewrite join_cons2. inversion Hfree as [|? ? Hx Hrest]; subst.
    change (x ++ String sep "" ++ join (String sep "") (y :: rest))%string
      with (x ++ String sep (join (String sep "") (y :: rest)))%string.
    rewrite split_app_sep by exact Hx. f_equal. apply IH; [discriminate | exact Hrest].
Qed.

Lemma string_app_assoc (a b c : string) : ((a ++ b) ++ c = a ++ (b ++ c))%string.
Proof. induction a as [|x a IH]; simpl; [reflexivity | rewrite IH; reflexivity]. Qed.

Lemma join_app sep (l1 l2 : list string) :
  l1 <> [] -> l2 <> [] ->
  join sep (l1 ++ l2) = (join sep l1 ++ sep ++ join sep l2)%string.
Proof.
  intros H1 H2. induction l1 as [|x [|y l1] IH]; [congruence| |].
  - destruct l2 as [|z l2]; [congruence|]. reflexivity.
  - change ((x :: y :: l1) ++ l2) with (x :: y :: (l1 ++ l2)).
    rewrite !join_cons2. change (y :: l1 ++ l2) with ((y :: l1) ++ l2).
    rewrite IH by discriminate. rewrite !string_app_assoc. reflexivity.
Qed.

(** Joining the joined rows is joining all cells. *)
Lemma join_rows sep (rows : list (list string)) :
  Forall (fun l => l <> []) rows ->
  join sep (map (join sep) rows) = join sep (concat rows).
Proof.
  induction rows as [|l [|l2 rows] IH]; intros Hne; [reflexivity| |].
  - simpl. rewrite app_nil_r. reflexivity.
  - inversion Hne as [|? ? Hl Hrest]; subst.
    change (map (join sep) (l :: l2 :: rows))
      with (join sep l :: join sep l2 :: map (join sep) rows).
    rewrite join_cons2.
    change (join sep l2 :: map (join sep) rows) with (map (join sep) (l2 :: rows)).
    rewrite IH by exact Hrest.
    change (concat (l :: l2 :: rows)) with (l ++ concat (l2 :: rows)).
    rewrite join_app; [reflexivity | exact Hl |].
    inversion Hrest as [|? ? Hl2 _]; subst. simpl.
    destruct l2; [congruence | discriminate].
Qed.

Lemma digit_prints_back v : in_range 0 9 v = true -> prints_back v.
Proof.
  intros H. apply in_range_spec in H as (z & -> & Hz).
  assert (Hcases : z = 0 \/ z = 1 \/ z = 2 \/ z = 3 \/ z = 4 \/ z = 5 \/ z = 6 \/
                   z = 7 \/ z = 8 \/ z = 9) by lia.
  repeat (destruct Hcases as [->|Hcases]; [split; reflexivity|]).
  subst z. split; reflexivity.
Qed.

Lemma fill_row_app (l : list value) rest :
  Forall prints_back l ->
  fill_row (length l) (map valueToString l ++ rest) = (l, rest).
Proof.
  induction l as [|v l IH]; intros H; [reflexivity|].
  inversion H as [|? ? [Hv _] Hl]; subst.
  cbn [length map app fill_row shift head tail]. rewrite (IH Hl).
  change (parseIntArg (Some (valueToString v))) with (parseInt (valueToString v)).
  rewrite Hv. reflexivity.
Qed.

Lemma fill_rows_concat (g : grid) :
  Forall (fun l => length l = 9%nat /\ Forall prints_back l) g ->
  fill_rows (length g) (concat (map (map valueToString) g)) = g.
Proof.
  induction g as [|l g IH]; intros H; [reflexivity|].
  inversion H as [|? ? [Hlen Hl] Hg]; subst.
  cbn [length map concat fill_rows]. rewrite <- Hlen at 1.
  rewrite (fill_row_app l _ Hl), (IH Hg). reflexivity.
Qed.

Lemma gridPrimitiveToArray_gridToString (g : grid) :
  grid_ok 0 9 g = true -> gridPrimitiveToArray (gridToString g) = g.
Proof.
  intros H. apply grid_ok_spec in H as [Hlen Hrows].
  unfold gridPrimitiveToArray, gridToString.
  rewrite <- (map_map (map valueToString) (join ",")).
  rewrite join_rows.
  2:{ apply Forall_forall. intros t Ht. apply list_elem_of_In in Ht.
      apply in_map_iff in Ht as (l & <- & Hl).
      destruct (Hrows l Hl) as [Hl9 _]. destruct l; [discriminate | discriminate]. }
  rewrite (split_join ","%char).
  - rewrite <- Hlen. apply fill_rows_concat. apply Forall_forall. intros l Hl.
    apply list_elem_of_In in Hl. destruct (Hrows l Hl) as [Hl9 Hcells].
    split; [exact Hl9|]. apply Forall_forall. intros v Hv.
    apply digit_prints_back, Hcells, list_elem_of_In, Hv.
  - destruct g as [|l g]; [discriminate|].
    destruct (Hrows l (or_introl eq_refl)) as [Hl9 _].
    destruct l; [discriminate | discriminate].
  - apply Forall_forall. intros t Ht. apply list_elem_of_In in Ht.
    apply in_concat in Ht as (ts & Hts & Ht).
    apply in_map_iff in Hts as (l & <- & Hl).
    apply in_map_iff in Ht as (v & <- & Hv).
    destruct (Hrows l Hl) as [_ Hcells].
    apply (digit_prints_back v (Hcells v Hv)).
Qed.

(** ** Rows, columns and subgrids *)

Lemma div3_bounds r : (3 * (r / 3) <= r < 3 * (r / 3) + 3)%nat.
Proof.
  pose proof (Nat.div_mod_eq r 3). pose proof (Nat.mod_upper_bound r 3). lia.
Qed.

Lemma div3_unique r b : (b * 3 <= r < b * 3 + 3)%nat -> (r / 3)%nat = b.
Proof. pose proof (div3_bounds r). lia. Qed.

Lemma row_of_In lo hi (g : grid) r v :
  grid_ok lo hi g = true -> (r < 9)%nat ->
  In v (row_of g r) <-> exists j, (j < 9)%nat /\ cell g r j = v.
Proof.
  intros Hg Hr. destruct (grid_ok_row lo hi g r Hg Hr) as (_ & Hlen & _). split.
  - intros H. apply list_elem_of_In, list_elem_of_lookup in H as [j Hj].
    exists j. split; [apply lookup_lt_Some in Hj; lia|].
    unfold cell. rewrite Hj. reflexivity.
  - intros (j & Hj & <-). destruct (grid_ok_cell lo hi g r j Hg Hr Hj) as [Hc _].
    apply list_elem_of_In. eapply list_elem_of_lookup_2; eauto.
Qed.

(** The three scans of [isValidPlacement], for a number. *)
Lemma isValidPlacement_false (g : grid) z r c :
  Grid09 g -> (r < 9)%nat ->
  isValidPlacement g (Int z) r c = false <->
  in_row g (Int z) r \/ in_column g (Int z) c \/ in_box g (Int z) r c.
Proof.
  intros Hg Hr. unfold isValidPlacement, in_row, in_column, in_box, range.
  destruct (existsb _ (row_of g r)) eqn:Hrow.
  { split; [intros _ | reflexivity]. left.
    apply existsb_exists in Hrow as (v & Hv & Heq).
    apply strict_eq_Int in Heq as ->. eapply row_of_In; eauto. }
  destruct (existsb _ (seq 0 9)) eqn:Hcol.
  { split; [intros _ | reflexivity]. right. left.
    apply existsb_exists in Hcol as (i & Hi & Heq).
    apply in_seq in Hi. apply strict_eq_Int in Heq. exists i. split; [lia | exact Heq]. }
  destruct (existsb _ (seq (r / 3 * 3) 3)) eqn:Hbox.
  { split; [intros _ | reflexivity]. right. right.
    apply existsb_exists in Hbox as (i & Hi & Hbox).
    apply existsb_exists in Hbox as (j & Hj & Heq).
    apply in_seq in Hi, Hj. apply strict_eq_Int in Heq.
    exists i, j. split; [lia|]. split; [lia | exact Heq]. }
  split; [discriminate|]. intros [Hin | [Hin | Hin]]; exfalso.
  - destruct Hin as (j & Hj & Heq).
    assert (Hex : existsb (fun x => strict_eq (Int z) x) (row_of g r) = true);
      [|congruence].
    apply existsb_exists. exists (Int z). split; [|apply strict_eq_Int; reflexivity].
    eapply row_of_In; eauto.
  - destruct Hin as (i & Hi & Heq).
    assert (Hex : existsb (fun i => strict_eq (Int z) (cell g i c)) (seq 0 9) = true);
      [|congruence].
    apply existsb_exists. exists i. split; [apply in_seq; lia|].
    apply strict_eq_Int. exact Heq.
  - destruct Hin as (i & j & Hi & Hj & Heq).
    assert (Hex : existsb (fun tempRow =>
                     existsb (fun tempColumn =>
                                strict_eq (Int z) (cell g tempRow tempColumn))
                             (seq (c / 3 * 3) 3)) (seq (r / 3 * 3) 3) = true);
      [|congruence].
    apply existsb_exists. exists i. split; [apply in_seq; lia|].
    apply existsb_exists. exists j. split; [apply in_seq; lia|].
    apply strict_eq_Int. exact Heq.
Qed.

(** ** Distinct values *)

Lemma value_eq_dec (a b : value) : {a = b} + {a <> b}.
Proof.
  decide equality; [apply Bool.bool_dec | apply Z.eq_dec].
Qed.

Lemma set_add_old x s : In x s -> set_add x s = s.
Proof.
  induction s as [|y s IH]; intros H; [destruct H|].
  simpl. destruct (same_value_zero x y) eqn:Hxy; [reflexivity|].
  destruct H as [->|H].
  - rewrite (proj2 (same_value_zero_eq x x) eq_refl) in Hxy. discriminate.
  - rewrite (IH H). reflexivity.
Qed.

Lemma set_add_new x s : ~ In x s -> set_add x s = s ++ [x].
Proof.
  induction s as [|y s IH]; intros H; [reflexivity|].
  simpl. destruct (same_value_zero x y) eqn:Hxy.
  - apply same_value_zero_eq in Hxy. subst. exfalso. apply H. left. reflexivity.
  - rewrite IH; [reflexivity|]. intros Hin. apply H. right. exact Hin.
Qed.

(** Adding the elements of [l] to the set [s] makes the set grow by the
    length of [l] exactly when [l] has no repetition and is new to [s]. *)
Lemma fold_set_add_length l : forall s,
  let r := fold_left (fun s x => set_add x s) l s in
  (length r <= length s + length l)%nat /\
  (length r = (length s + length l)%nat <->
   NoDup l /\ forall x, In x l -> ~ In x s).
Proof.
  induction l as [|x l IH]; intros s; cbn zeta.
  - simpl. split; [lia|]. split; [|lia]. intros _. split; [constructor | tauto].
  - cbn [fold_left length]. destruct (in_dec value_eq_dec x s) as [Hin|Hnin].
    + rewrite (set_add_old x s Hin). destruct (IH s) as [Hle _]. cbn zeta in Hle.
      split; [lia|]. split; [lia|]. intros [_ Hdis]. exfalso.
      apply (Hdis x); [left; reflexivity | exact Hin].
    + rewrite (set_add_new x s Hnin). destruct (IH (s ++ [x])) as [Hle Heq].
      cbn zeta in Hle, Heq. rewrite length_app in Hle, Heq. simpl in Hle, Heq.
      split; [lia|]. split.
      * intros H. destruct Heq as [Heq _]. destruct Heq as [Hnd Hdis]; [lia|].
        split.
        -- constructor; [|exact Hnd]. intros Hx. apply list_elem_of_In in Hx.
           apply (Hdis x Hx). apply in_or_app. right. left. reflexivity.
        -- intros y [<-|Hy]; [exact Hnin|]. intros Hys.
           apply (Hdis y Hy). apply in_or_app. left. exact Hys.
      * intros [Hnd Hdis]. destruct Heq as [_ Heq]. inversion Hnd as [|? ? Hx Hnd']; subst.
        enough (length (fold_left (fun s x => set_add x s) l (s ++ [x]))
                = (length s + 1 + length l)%nat) by lia.
        apply Heq. split; [exact Hnd'|]. intros y Hy Hys.
        apply in_app_or in Hys as [Hys | [<- | []]].
        -- apply (Hdis y); [right; exact Hy | exact Hys].
        -- apply Hx. apply list_elem_of_In. exact Hy.
Qed.

(** [[...new Set(l)].length] is the length of [l] exactly when the values of
    [l] are distinct. *)
Lemma newSet_length l : length (newSet l) = length l <-> NoDup l.
Proof.
  unfold newSet. destruct (fold_set_add_length l []) as [_ H]. cbn zeta in H.
  simpl in H. rewrite H. split; [tauto|]. intros Hnd. split; [exact Hnd|].
  intros x _ [].
Qed.

Lemma NoDup_map_inj {A B : Type} (f : A -> B) l :
  NoDup l ->
  NoDup (map f l) <-> forall x y, In x l -> In y l -> f x = f y -> x = y.
Proof.
  intros Hnd. induction Hnd as [|a l Ha Hnd IH]; simpl.
  - split; [intros _ x y [] | constructor].
  - rewrite list_elem_of_In in Ha. split.
    + intros H. inversion H as [|? ? Hfa Hmap]; subst.
      rewrite list_elem_of_In in Hfa.
      intros x y [<-|Hx] [<-|Hy] Hxy; try reflexivity.
      * exfalso. apply Hfa. rewrite Hxy. apply in_map. exact Hy.
      * exfalso. apply Hfa. rewrite <- Hxy. apply in_map. exact Hx.
      * apply IH; assumption.
    + intros H. constructor.
      * rewrite list_elem_of_In. intros Hfa. apply in_map_iff in Hfa as (y & Hy & Hin).
        apply Ha. rewrite (H a y); auto.
      * apply IH. intros x y Hx Hy. apply H; auto.
Qed.

(** ** The checks of [validateFullGrid] *)

Lemma box_of_cells (g : grid) br bc :
  box_of g br bc = map (fun p => cell g p.1 p.2) (box_cells br bc).
Proof.
  unfold box_of, box_cells. induction (range (br * 3) 3) as [|r l IH]; [reflexivity|].
  cbn [flat_map]. rewrite map_app, map_map, IH. reflexivity.
Qed.

Lemma box_cells_In br bc r c :
  In (r, c) (box_cells br bc) <->
  (br * 3 <= r < br * 3 + 3)%nat /\ (bc * 3 <= c < bc * 3 + 3)%nat.
Proof.
  unfold box_cells, range. rewrite in_flat_map. split.
  - intros (r' & Hr & Hc). apply in_map_iff in Hc as (c' & Heq & Hc).
    injection Heq as -> ->. apply in_seq in Hr, Hc. lia.
  - intros [Hr Hc]. exists r. split; [apply in_seq; lia|].
    apply in_map_iff. exists c. split; [reflexivity | apply in_seq; lia].
Qed.

Lemma box_cells_NoDup br bc : NoDup (box_cells br bc).
Proof.
  unfold box_cells, range.
  assert (H : forall lr lc : list nat, NoDup lr -> NoDup lc ->
            NoDup (flat_map (fun r => map (fun c => (r, c)) lc) lr)).
  { intros lr lc Hlr Hlc. induction Hlr as [|r lr Hr Hlr IH]; simpl; [constructor|].
    apply NoDup_app. split; [|split; [|exact IH]].
    - apply (NoDup_fmap_2 (pair r)). exact Hlc.
    - intros [r' c'] H1 H2. apply list_elem_of_In in H1, H2.
      apply in_map_iff in H1 as (c0 & Heq & _). injection Heq as <- <-.
      apply in_flat_map in H2 as (r2 & Hr2 & Hc2).
      apply in_map_iff in Hc2 as (c2 & Heq & _). injection Heq as -> ->.
      apply Hr. apply list_elem_of_In. exact Hr2. }
  apply H; apply NoDup_ListNoDup, List.seq_NoDup.
Qed.

Lemma box_check_distinct (g : grid) : box_check g <-> boxes_distinct g.
Proof.
  unfold box_check, boxes_distinct. split.
  - intros H br bc Hbr Hbc. rewrite box_of_cells.
    apply NoDup_map_inj; [apply box_cells_NoDup|].
    intros [r c] [r' c'] Hp Hq Heq. simpl in Heq.
    apply box_cells_In in Hp as [Hr Hc]. apply box_cells_In in Hq as [Hr' Hc'].
    rewrite <- (div3_unique r br Hr) in Hr'. rewrite <- (div3_unique c bc Hc) in Hc'.
    destruct (H r c r' c') as [-> ->]; try assumption; try lia. reflexivity.
  - intros H row column tempRow tempColumn Hr Hc Htr Htc Heq.
    pose proof (div3_bounds row) as Hbr. pose proof (div3_bounds column) as Hbc.
    specialize (H (row / 3)%nat (column / 3)%nat ltac:(lia) ltac:(lia)).
    rewrite box_of_cells in H.
    pose proof (proj1 (NoDup_map_inj _ _ (box_cells_NoDup _ _)) H) as Hinj.
    clear H. rename Hinj into H.
    assert (Hpq : (row, column) = (tempRow, tempColumn)).
    { apply H; [apply box_cells_In; lia | apply box_cells_In; lia | exact Heq]. }
    injection Hpq as -> ->. split; reflexivity.
Qed.

Lemma validateFullGrid_checks lo hi (g : grid) :
  grid_ok lo hi g = true ->
  validateFullGrid g = true <->
  rows_distinct g /\ columns_distinct g /\ boxes_distinct g.
Proof.
  intros Hg. rewrite <- box_check_distinct. unfold validateFullGrid, range.
  set (A := forallb _ (seq 0 9)) at 1. set (B := forallb _ (seq 0 9)) at 1.
  set (C := forallb _ (seq 0 9)).
  assert (HA : A = true <-> rows_distinct g).
  { unfold A, rows_distinct. rewrite forallb_forall. split.
    - intros H i Hi. destruct (grid_ok_row lo hi g i Hg Hi) as (_ & Hlen & _).
      apply newSet_length. rewrite Hlen. apply Nat.eqb_eq, H, in_seq. lia.
    - intros H i Hi. apply in_seq in Hi.
      destruct (grid_ok_row lo hi g i Hg) as (_ & Hlen & _); [lia|].
      apply Nat.eqb_eq. rewrite <- Hlen. apply newSet_length, H. lia. }
  assert (HB : B = true <-> columns_distinct g).
  { unfold B, columns_distinct, column_of, range. rewrite forallb_forall. split.
    - intros H j Hj. apply newSet_length. rewrite length_map, length_seq.
      apply Nat.eqb_eq, H, in_seq. lia.
    - intros H j Hj. apply in_seq in Hj. apply Nat.eqb_eq.
      rewrite <- (length_seq 0 9) at 2.
      rewrite <- (length_map (fun row => cell g row j)).
      apply newSet_length, H. lia. }
  assert (HC : C = true <-> box_check g).
  { unfold C, box_check. rewrite forallb_forall. split.
    - intros H row column tempRow tempColumn Hr Hc Htr Htc Heq.
      specialize (H column ltac:(apply in_seq; lia)).
      rewrite forallb_forall in H. specialize (H row ltac:(apply in_seq; lia)).
      cbn zeta in H. rewrite forallb_forall in H.
      specialize (H tempRow ltac:(apply in_seq; lia)).
      rewrite forallb_forall in H. specialize (H tempColumn ltac:(apply in_seq; lia)).
      apply negb_true_iff, andb_false_iff in H.
      destruct (grid_ok_cell lo hi g row column Hg Hr Hc) as [_ Hv].
      apply in_range_spec in Hv as (z & Hz & _).
      destruct H as [H | H].
      + rewrite Hz in H. rewrite Hz in Heq.
        rewrite (proj2 (strict_eq_Int z _) (eq_sym Heq)) in H. discriminate.
      + apply orb_false_iff in H as [H1 H2].
        apply negb_false_iff, Nat.eqb_eq in H1, H2. split; assumption.
    - intros H column Hc. apply in_seq in Hc. apply forallb_forall. intros row Hr.
      apply in_seq in Hr. cbn zeta. apply forallb_forall. intros tempRow Htr.
      apply in_seq in Htr. apply forallb_forall. intros tempColumn Htc.
      apply in_seq in Htc. apply negb_true_iff.
      destruct (strict_eq (cell g row column) (cell g tempRow tempColumn)) eqn:Heq;
        [|reflexivity].
      destruct (grid_ok_cell lo hi g row column Hg) as [_ Hv]; [lia | lia |].
      apply in_range_spec in Hv as (z & Hz & _). rewrite Hz in Heq.
      apply strict_eq_Int in Heq.
      destruct (H row column tempRow tempColumn) as [-> ->]; try lia.
      + rewrite Hz, Heq. reflexivity.
      + rewrite !Nat.eqb_refl. reflexivity. }
  rewrite <- HA, <- HB, <- HC. destruct A, B, C; simpl; intuition congruence.
Qed.

(** ** Nine distinct digits are the digits 1 to 9 *)

Lemma occurrences_absent z l : ~ In (Int z) l -> occurrences (Int z) l = 0%nat.
Proof.
  unfold occurrences. induction l as [|x l IH]; intros H; [reflexivity|].
  cbn [List.filter]. destruct (strict_eq (Int z) x) eqn:Hx.
  - apply strict_eq_Int in Hx. subst. exfalso. apply H. left. reflexivity.
  - apply IH. intros Hin. apply H. right. exact Hin.
Qed.

Lemma occurrences_NoDup z l : NoDup l -> In (Int z) l -> occurrences (Int z) l = 1%nat.
Proof.
  intros Hnd. induction Hnd as [|x l Hx Hnd IH]; intros Hin; [destruct Hin|].
  rewrite list_elem_of_In in Hx. unfold occurrences. cbn [List.filter].
  destruct (strict_eq (Int z) x) eqn:Heq.
  - apply strict_eq_Int in Heq. subst. cbn [length]. f_equal.
    apply occurrences_absent. exact Hx.
  - destruct Hin as [->|Hin]; [|apply IH; exact Hin].
    rewrite (proj2 (strict_eq_Int z (Int z)) eq_refl) in Heq. discriminate.
Qed.

Lemma distinct_digits_once l :
  NoDup l -> length l = 9%nat -> (forall v, In v l -> in_range 1 9 v = true) ->
  each_digit_once l.
Proof.
  intros Hnd Hlen Hrange d Hd. apply occurrences_NoDup; [exact Hnd|].
  apply (List.NoDup_length_incl (l := l) (l' := map Int (map Z.of_nat (seq 1 9)))).
  - apply NoDup_ListNoDup. exact Hnd.
  - rewrite !length_map, length_seq. lia.
  - intros v Hv. apply Hrange in Hv. apply in_range_spec in Hv as (z & -> & Hz).
    apply in_map, (proj2 (numbersToTry_spec z)). exact Hz.
  - apply in_map, (proj2 (numbersToTry_spec d)). exact Hd.
Qed.

Lemma each_digit_once_NoDup l :
  length l = 9%nat -> (forall v, In v l -> in_range 1 9 v = true) ->
  each_digit_once l -> NoDup l.
Proof.
  intros Hlen Hrange Honce.
  assert (Hmember : forall d, 1 <= d <= 9 -> In (Int d) l).
  { intros d Hd. specialize (Honce d Hd). unfold occurrences in Honce.
    destruct (List.filter (fun x => strict_eq (Int d) x) l) as [|x xs] eqn:Hf;
      [discriminate|].
    assert (Hx : In x (List.filter (fun x => strict_eq (Int d) x) l))
      by (rewrite Hf; left; reflexivity).
    apply List.filter_In in Hx as [Hx Heq]. apply strict_eq_Int in Heq. subst. exact Hx. }
  apply NoDup_ListNoDup.
  apply (List.NoDup_incl_NoDup (l := map Int (map Z.of_nat (seq 1 9)))).
  - apply Finite.Injective_map_NoDup; [intros x y Hxy; congruence|].
    apply Finite.Injective_map_NoDup; [intros x y Hxy; lia|].
    apply List.seq_NoDup.
  - rewrite !length_map, length_seq. lia.
  - intros v Hv. apply in_map_iff in Hv as (d & <- & Hd).
    apply Hmember, numbersToTry_spec, Hd.
Qed.

Lemma column_of_range lo hi (g : grid) j v :
  grid_ok lo hi g = true -> (j < 9)%nat -> In v (column_of g j) ->
  in_range lo hi v = true.
Proof.
  intros Hg Hj Hv. apply in_map_iff in Hv as (r & <- & Hr). apply in_seq in Hr.
  apply (grid_ok_cell lo hi g r j Hg); lia.
Qed.

Lemma box_of_range lo hi (g : grid) br bc v :
  grid_ok lo hi g = true -> (br < 3)%nat -> (bc < 3)%nat -> In v (box_of g br bc) ->
  in_range lo hi v = true.
Proof.
  intros Hg Hbr Hbc Hv. rewrite box_of_cells in Hv.
  apply in_map_iff in Hv as ([r c] & <- & Hp). apply box_cells_In in Hp.
  apply (grid_ok_cell lo hi g r c Hg); lia.
Qed.

Lemma box_of_length (g : grid) br bc : length (box_of g br bc) = 9%nat.
Proof.
  rewrite box_of_cells, length_map. unfold box_cells, range.
  cbn [seq flat_map]. rewrite !length_app, !length_map. reflexivity.
Qed.

(** On a grid of digits the three checks say that the grid is a solution. *)
Lemma distinct_is_solution (g : grid) :
  Grid19 g ->
  rows_distinct g /\ columns_distinct g /\ boxes_distinct g <-> is_solution g.
Proof.
  intros Hg. unfold is_solution. split.
  - intros (Hrows & Hcols & Hboxes). split; [exact Hg|]. repeat split.
    + intros i Hi. destruct (grid_ok_row 1 9 g i Hg Hi) as (_ & Hlen & Hr).
      apply distinct_digits_once; auto.
    + intros j Hj. apply distinct_digits_once; [auto | reflexivity |].
      intros v. apply column_of_range; assumption.
    + intros br bc Hbr Hbc. apply distinct_digits_once; [auto | apply box_of_length |].
      intros v. apply box_of_range; assumption.
  - intros (_ & Hrows & Hcols & Hboxes). repeat split.
    + intros i Hi. destruct (grid_ok_row 1 9 g i Hg Hi) as (_ & Hlen & Hr).
      apply each_digit_once_NoDup; auto.
    + intros j Hj. apply each_digit_once_NoDup; [reflexivity | | auto].
      intros v. apply column_of_range; assumption.
    + intros br bc Hbr Hbc. apply each_digit_once_NoDup; [apply box_of_length | | auto].
      intros v. apply box_of_range; assumption.
Qed.

Lemma validateFullGrid_solution (g : grid) :
  Grid19 g -> validateFullGrid g = true <-> is_solution g.
Proof.
  intros Hg. rewrite (validateFullGrid_checks 1 9 g Hg).
  apply distinct_is_solution. exact Hg.
Qed.

(** ** The search keeps the filled cells free of conflicts *)

Lemma peers_spec p q :
  peers p q = true <->
  p <> q /\ (p.1 = q.1 \/ p.2 = q.2 \/
             ((p.1 / 3)%nat = (q.1 / 3)%nat /\ (p.2 / 3)%nat = (q.2 / 3)%nat)).
Proof.
  destruct p as [r c], q as [r' c']. unfold peers. simpl.
  rewrite andb_true_iff, negb_true_iff, andb_false_iff, !orb_true_iff,
    andb_true_iff, !Nat.eqb_eq, !Nat.eqb_neq.
  split; intros [H1 H2]; (split; [|tauto]).
  - intros Heq. injection Heq as -> ->. destruct H1; congruence.
  - destruct (decide (r = r')) as [->|Hr]; [|left; exact Hr].
    right. intros ->. apply H1. reflexivity.
Qed.

Lemma conflict_free_spec (g : grid) :
  conflict_free g = true <->
  forall p q, In p positions -> In q positions ->
    cell g p.1 p.2 <> Int 0 -> peers p q = true ->
    strict_eq (cell g p.1 p.2) (cell g q.1 q.2) = false.
Proof.
  unfold conflict_free. rewrite forallb_forall. split.
  - intros H p q Hp Hq Hne Hpeers. specialize (H p Hp).
    apply orb_true_iff in H as [H | H].
    + apply strict_eq_Int_r in H. contradiction.
    + rewrite forallb_forall in H. specialize (H q Hq).
      rewrite Hpeers in H. apply negb_true_iff in H. exact H.
  - intros H p Hp.
    destruct (strict_eq (cell g p.1 p.2) (Int 0)) eqn:Hz; [reflexivity|].
    cbn [orb]. apply forallb_forall. intros q Hq. apply negb_true_iff.
    destruct (peers p q) eqn:Hpeers; [|reflexivity]. cbn [andb].
    apply H; try assumption. intros Heq. rewrite Heq in Hz. discriminate.
Qed.

(** A peer of the cell [(r, c)] lies in its row, its column or its subgrid. *)
Lemma peer_in_unit (g : grid) r c q v :
  In q positions -> peers (r, c) q = true -> cell g q.1 q.2 = v ->
  in_row g v r \/ in_column g v c \/ in_box g v r c.
Proof.
  destruct q as [r' c']. intros Hq Hpeers Hv. cbn [fst snd] in Hv.
  apply positions_spec in Hq as [Hr' Hc'].
  apply peers_spec in Hpeers as [_ H]. cbn [fst snd] in H.
  destruct H as [-> | [-> | [Hbr Hbc]]].
  - left. exists c'. split; assumption.
  - right. left. exists r'. split; assumption.
  - right. right. exists r', c'. rewrite Hbr, Hbc.
    pose proof (div3_bounds r'). pose proof (div3_bounds c'). repeat split; try lia.
    exact Hv.
Qed.

Lemma peers_sym p q : peers p q = true -> peers q p = true.
Proof.
  rewrite !peers_spec. intros [Hne H]. split; [congruence|].
  destruct H as [H | [H | [H1 H2]]]; auto.
Qed.

Lemma conflict_free_place (g : grid) r c n :
  Grid09 g -> conflict_free g = true -> (r < 9)%nat -> (c < 9)%nat ->
  cell g r c = Int 0 -> 1 <= n <= 9 -> isValidPlacement g (Int n) r c = true ->
  conflict_free (place g r c (Int n)) = true.
Proof.
  intros Hg Hfree Hr Hc Hz Hn Hvalid.
  assert (Hnew : forall q, In q positions -> peers (r, c) q = true ->
                           cell g q.1 q.2 <> Int n).
  { intros q Hq Hpeers Hv.
    assert (Hf : isValidPlacement g (Int n) r c = false); [|congruence].
    apply isValidPlacement_false; [exact Hg | exact Hr |].
    eapply peer_in_unit; eauto. }
  rewrite conflict_free_spec in Hfree. apply conflict_free_spec.
  assert (Hlen : (c < length (row_of g r))%nat).
  { destruct (grid_ok_row 0 9 g r Hg Hr) as (_ & Hl & _). lia. }
  intros [pr pc] [qr qc] Hp Hq Hne Hpeers. cbn [fst snd] in *.
  assert (Hpq : (pr, pc) <> (qr, qc)) by (apply peers_spec in Hpeers; tauto).
  destruct (decide ((r, c) = (pr, pc))) as [Hp0|Hp0];
    destruct (decide ((r, c) = (qr, qc))) as [Hq0|Hq0].
  - congruence.
  - injection Hp0 as <- <-. rewrite cell_place_eq by exact Hlen.
    rewrite cell_place_ne by exact Hq0.
    destruct (strict_eq (Int n) (cell g qr qc)) eqn:Heq; [|reflexivity].
    apply strict_eq_Int in Heq. exfalso. apply (Hnew (qr, qc) Hq Hpeers Heq).
  - injection Hq0 as <- <-. rewrite cell_place_eq by exact Hlen.
    rewrite cell_place_ne by exact Hp0.
    destruct (strict_eq (cell g pr pc) (Int n)) eqn:Heq; [|reflexivity].
    apply strict_eq_Int_r in Heq. exfalso.
    apply (Hnew (pr, pc) Hp (peers_sym _ _ Hpeers) Heq).
  - rewrite !cell_place_ne by assumption. rewrite cell_place_ne in Hne by assumption.
    apply (Hfree (pr, pc) (qr, qc)); assumption.
Qed.

Lemma row_of_cells lo hi (g : grid) r :
  grid_ok lo hi g = true -> (r < 9)%nat ->
  row_of g r = map (fun c => cell g r c) (range 0 9).
Proof.
  intros Hg Hr. destruct (grid_ok_row lo hi g r Hg Hr) as (_ & Hlen & _).
  apply list_eq. intros c. unfold range.
  destruct (decide (c < 9)%nat) as [Hc|Hc].
  - destruct (grid_ok_cell lo hi g r c Hg Hr Hc) as [-> _].
    rewrite list_lookup_fmap, lookup_seq_lt by lia. reflexivity.
  - rewrite !lookup_ge_None_2; [reflexivity | rewrite length_map, length_seq; lia | lia].
Qed.

(** A grid of digits without conflicts passes the three checks. *)
Lemma conflict_free_distinct (g : grid) :
  Grid19 g -> conflict_free g = true ->
  rows_distinct g /\ columns_distinct g /\ boxes_distinct g.
Proof.
  intros Hg Hfree. rewrite conflict_free_spec in Hfree.
  assert (Hdiff : forall r c r' c', (r < 9)%nat -> (c < 9)%nat -> (r' < 9)%nat ->
            (c' < 9)%nat -> peers (r, c) (r', c') = true ->
            cell g r c <> cell g r' c').
  { intros r c r' c' Hr Hc Hr' Hc' Hpeers Heq.
    destruct (grid_ok_cell 1 9 g r c Hg Hr Hc) as [_ Hv].
    apply in_range_spec in Hv as (z & Hz & Hz19).
    specialize (Hfree (r, c) (r', c')). cbn [fst snd] in Hfree.
    rewrite <- Heq, Hz in Hfree.
    rewrite (proj2 (strict_eq_Int z (Int z)) eq_refl) in Hfree.
    enough (true = false) by discriminate.
    apply Hfree; try (apply positions_spec; lia); try exact Hpeers.
    intros H0. injection H0 as ->. lia. }
  repeat split.
  - intros i Hi. rewrite (row_of_cells 1 9 g i Hg Hi).
    apply NoDup_map_inj; [apply NoDup_ListNoDup, List.seq_NoDup|].
    intros c c' Hc Hc' Heq. apply in_seq in Hc, Hc'.
    destruct (decide (c = c')) as [->|Hne]; [reflexivity|]. exfalso.
    apply (Hdiff i c i c'); try lia; try exact Heq.
    apply peers_spec. cbn [fst snd]. split; [congruence | auto].
  - intros j Hj. unfold column_of.
    apply NoDup_map_inj; [apply NoDup_ListNoDup, List.seq_NoDup|].
    intros r r' Hr Hr' Heq. apply in_seq in Hr, Hr'.
    destruct (decide (r = r')) as [->|Hne]; [reflexivity|]. exfalso.
    apply (Hdiff r j r' j); try lia; try exact Heq.
    apply peers_spec. cbn [fst snd]. split; [congruence | auto].
  - apply box_check_distinct. intros row column tempRow tempColumn Hr Hc Htr Htc Heq.
    pose proof (div3_bounds row). pose proof (div3_bounds column).
    destruct (decide ((row, column) = (tempRow, tempColumn))) as [Hpq|Hpq];
      [injection Hpq as -> ->; split; reflexivity|].
    exfalso. apply (Hdiff row column tempRow tempColumn); try lia; try exact Heq.
    apply peers_spec. cbn [fst snd]. split; [exact Hpq|]. right. right.
    split; symmetry; apply div3_unique; lia.
Qed.

(** From clues without conflict the search completes solutions only. *)
Lemma completions_solution (g h : grid) :
  Grid09 g -> conflict_free g = true -> In h (completions g) -> is_solution h.
Proof.
  intros Hg Hfree Hh.
  destruct (fillings_invariant (fun g' => Grid09 g' /\ conflict_free g' = true))
    with (cells := emptyCells g) (g := g) (h := h) as [[_ Hfree'] _];
    try assumption; try reflexivity; auto.
  { intros g' r c n [Hg' Hf'] Hr Hc Hz Hn Hvalid. split.
    - apply grid_ok_place; [exact Hg'|]. apply in_range_spec.
      exists n. split; [reflexivity | lia].
    - apply conflict_free_place; assumption. }
  pose proof (completions_full g h Hg Hh) as H19.
  apply distinct_is_solution; [exact H19|].
  apply conflict_free_distinct; assumption.
Qed.

(** ** The module variable across calls *)

Lemma join_head sep x rest : exists t, join sep (x :: rest) = (x ++ t)%string.
Proof.
  destruct rest as [|y rest].
  - exists ""%string. simpl. induction x as [|c x IH]; simpl; congruence.
  - eexists. apply join_cons2.
Qed.

(** The snapshot of a completed grid is not the empty text. *)
Lemma gridToString_truthy (h : grid) :
  Grid19 h -> is_falsy (Some (gridToString h)) = false.
Proof.
  intros Hh. apply grid_ok_spec in Hh as [Hlen Hrows].
  destruct h as [|l h]; [discriminate|].
  destruct (Hrows l (or_introl eq_refl)) as [Hl Hcells].
  destruct l as [|v l]; [discriminate|].
  specialize (Hcells v (or_introl eq_refl)).
  apply (in_range_weaken 1 9 0 9) in Hcells; [|lia|lia].
  unfold gridToString. cbn [map].
  destruct (join_head "," (join "," (valueToString v :: map valueToString l))
              (map (fun l => join "," (map valueToString l)) h)) as [t ->].
  destruct (join_head "," (valueToString v) (map valueToString l)) as [t' ->].
  apply in_range_spec in Hcells as (z & -> & Hz).
  assert (Hcases : z = 0 \/ z = 1 \/ z = 2 \/ z = 3 \/ z = 4 \/ z = 5 \/ z = 6 \/
                   z = 7 \/ z = 8 \/ z = 9) by lia.
  repeat (destruct Hcases as [->|Hcases]; [reflexivity|]).
  subst z. reflexivity.
Qed.

Lemma record_all_cases prim (g : grid) :
  (completions g = [] /\ record_all prim (completions g) = prim) \/
  (exists h, In h (completions g) /\ last (completions g) = Some h /\
             record_all prim (completions g) = Some (gridToString h)).
Proof.
  rewrite record_all_last. destruct (last (completions g)) as [h|] eqn:Hl.
  - right. exists h. split; [|split; reflexivity].
    apply list_elem_of_In. apply last_Some_elem_of. exact Hl.
  - left. apply last_None in Hl. split; [exact Hl | reflexivity].
Qed.

Lemma snapshot_ok_step prim (g : grid) :
  Grid09 g -> snapshot_ok prim -> snapshot_ok (record_all prim (completions g)).
Proof.
  intros Hg Hprim. destruct (record_all_cases prim g) as [[_ ->] | (h & Hh & _ & ->)].
  - exact Hprim.
  - right. exists h. split; [|reflexivity]. eapply completions_full; eauto.
Qed.

(** The three exits of [getGridSolution]. *)
Lemma getGridSolution_cases (g : grid) prim :
  let prim' := record_all prim (completions g) in
  let solution := gridPrimitiveToArray (default ""%string prim') in
  exists out, getGridSolution g prim = Some out /\ final out = Store g prim' /\
    (returned out = ReturnFalse /\ is_falsy prim' = true \/
     returned out = ReturnFalse /\ is_falsy prim' = false /\
       validateFullGrid solution = false \/
     returned out = ReturnGrid solution /\ is_falsy prim' = false /\
       validateFullGrid solution = true).
Proof.
  cbn zeta. unfold getGridSolution. rewrite solveGrid_spec. cbn [st_prim].
  destruct (is_falsy (record_all prim (completions g))) eqn:Hfalsy.
  - eexists. split; [reflexivity|]. split; [reflexivity|]. left. split; reflexivity.
  - destruct (validateFullGrid _) eqn:Hvalid.
    + eexists. split; [reflexivity|]. split; [reflexivity|]. right. right.
      repeat split; reflexivity.
    + eexists. split; [reflexivity|]. split; [reflexivity|]. right. left.
      repeat split; reflexivity.
Qed.

Lemma reachable_snapshot_ok prim : reachable prim -> snapshot_ok prim.
Proof.
  induction 1 as [|g prim out _ IH Hg Hcall]; [left; reflexivity|].
  destruct (getGridSolution_cases g prim) as (out' & Hout & Hfinal & _).
  cbn zeta in Hout, Hfinal. rewrite Hcall in Hout. injection Hout as <-.
  rewrite Hfinal. cbn [st_prim]. apply snapshot_ok_step; assumption.
Qed.

(** A returned grid is the completed grid whose snapshot the module variable
    holds after the search. *)
Lemma returned_grid_snapshot (g : grid) prim out sol :
  Grid09 g -> snapshot_ok prim ->
  getGridSolution g prim = Some out -> returned out = ReturnGrid sol ->
  Grid19 sol /\ validateFullGrid sol = true /\
  record_all prim (completions g) = Some (gridToString sol).
Proof.
  intros Hg Hprim Hcall Hret.
  destruct (getGridSolution_cases g prim) as (out' & Hout & _ & Hexit).
  cbn zeta in Hout, Hexit. rewrite Hcall in Hout. injection Hout as <-.
  rewrite Hret in Hexit.
  destruct Hexit as [[Hr _] | [[Hr _] | (Hr & Hfalsy & Hvalid)]]; try discriminate.
  injection Hr as Hsol.
  destruct (snapshot_ok_step prim g Hg Hprim) as [Hnone | (h & Hh & Hsome)].
  - rewrite Hnone in Hfalsy. discriminate.
  - rewrite Hsome in Hsol, Hvalid |- *. cbn [default from_option id] in Hsol, Hvalid.
    rewrite gridPrimitiveToArray_gridToString in Hsol, Hvalid
      by (apply (grid_ok_weaken 1 9 0 9); [lia | lia | exact Hh]).
    subst sol. repeat split; assumption.
Qed.

(** In a call that starts with [gridPrimitive] unset, or whose search
    completes a grid, the returned grid is a completion of the input. *)
Lemma returned_grid_completion (g : grid) prim out sol :
  Grid09 g -> prim = None \/ completions g <> [] ->
  getGridSolution g prim = Some out -> returned out = ReturnGrid sol ->
  In sol (completions g).
Proof.
  intros Hg Hcase Hcall Hret.
  destruct (getGridSolution_cases g prim) as (out' & Hout & _ & Hexit).
  cbn zeta in Hout, Hexit. rewrite Hcall in Hout. injection Hout as <-.
  rewrite Hret in Hexit.
  destruct Hexit as [[Hr _] | [[Hr _] | (Hr & Hfalsy & Hvalid)]]; try discriminate.
  injection Hr as Hsol.
  destruct (record_all_cases prim g) as [[Hnil Hsame] | (h & Hh & _ & Hsome)].
  - destruct Hcase as [-> | Hne]; [|contradiction].
    rewrite Hsame in Hfalsy. discriminate.
  - rewrite Hsome in Hsol. cbn [default from_option id] in Hsol.
    rewrite gridPrimitiveToArray_gridToString in Hsol.
    + subst sol. exact Hh.
    + apply (grid_ok_weaken 1 9 0 9); [lia | lia |]. eapply completions_full; eauto.
Qed.

(** With [gridPrimitive] unset, a search that completes no grid makes
    [getGridSolution] return [false]. *)
Lemma unsolvable_fresh (g : grid) :
  completions g = [] ->
  exists out, getGridSolution g None = Some out /\ returned out = ReturnFalse.
Proof.
  intros Hnil. unfold getGridSolution. rewrite solveGrid_spec, Hnil.
  eexists. split; reflexivity.
Qed.

Lemma firstEmpty_Some g row column :
  firstEmpty g = Some (row, column) ->
  exists rest, emptyCells g = (row, column) :: rest.
Proof.
  rewrite firstEmpty_emptyCells. destruct (emptyCells g) as [|p rest]; [discriminate|].
  intros H. injection H as ->. exists rest. reflexivity.
Qed.

(** * The claims *)

(** ** C7: the placement validator *)

(** C7.  For a 9x9 grid with cells in [0,9], a digit [d] in [1,9] and a cell
    [(row, column)] in range, [isValidPlacement] returns [true] if [d] occurs
    nowhere in the row, nowhere in the column and nowhere in the 3x3 subgrid
    with origin [(3 * (row / 3), 3 * (column / 3))], and returns [false] if
    [d] occurs in at least one of the three. *)
Theorem isValidPlacement_correct (g : grid) (d : Z) (row column : nat) :
  Grid09 g -> 1 <= d <= 9 -> (row < 9)%nat -> (column < 9)%nat ->
  (~ in_row g (Int d) row /\ ~ in_column g (Int d) column /\
   ~ in_box g (Int d) row column ->
   isValidPlacement g (Int d) row column = true) /\
  (in_row g (Int d) row \/ in_column g (Int d) column \/
   in_box g (Int d) row column ->
   isValidPlacement g (Int d) row column = false).
Proof.
  intros Hg _ Hrow _.
  pose proof (isValidPlacement_false g d row column Hg Hrow) as H.
  split.
  - intros (Hr & Hc & Hb).
    destruct (isValidPlacement g (Int d) row column); [reflexivity|].
    exfalso. destruct (proj1 H eq_refl) as [? | [? | ?]]; contradiction.
  - intros Hin. apply H. exact Hin.
Qed.

Lemma isValidPlacement_correct_witness :
  Grid09 twoWays /\ 1 <= 6 <= 9 /\ (0 < 9)%nat /\ (3 < 9)%nat /\
  ((~ in_row twoWays (Int 6) 0 /\ ~ in_column twoWays (Int 6) 3 /\
    ~ in_box twoWays (Int 6) 0 3 ->
    isValidPlacement twoWays (Int 6) 0 3 = true) /\
   (in_row twoWays (Int 6) 0 \/ in_column twoWays (Int 6) 3 \/
    in_box twoWays (Int 6) 0 3 ->
    isValidPlacement twoWays (Int 6) 0 3 = false)).
Proof.
  split; [reflexivity|]. split; [lia|]. split; [lia|]. split; [lia|].
  apply (isValidPlacement_correct twoWays 6 0 3); [reflexivity | lia | lia | lia].
Defined.

(** ** C8: the solution validator *)

(** C8.  For a 9x9 grid that contains only digits 1 to 9, [validateFullGrid]
    returns [true] if and only if each of the 9 rows holds 9 distinct values,
    each of the 9 columns holds 9 distinct values and each of the 9 subgrids
    holds 9 distinct values. *)
Theorem validateFullGrid_correct (g : grid) :
  Grid19 g ->
  validateFullGrid g = true <->
  rows_distinct g /\ columns_distinct g /\ boxes_distinct g.
Proof. intros Hg. apply (validateFullGrid_checks 1 9 g Hg). Qed.

Lemma validateFullGrid_correct_witness :
  Grid19 solved /\
  (validateFullGrid solved = true <->
   rows_distinct solved /\ columns_distinct solved /\ boxes_distinct solved).
Proof.
  split; [reflexivity|]. apply (validateFullGrid_correct solved). reflexivity.
Defined.

(** ** C10: the snapshot reads back *)

(** C10.  For a 9x9 grid of digits, the text [`${grid}`] that [solveGrid]
    stores, read by [gridPrimitiveToArray], is a 9x9 grid equal to the
    original. *)
Theorem gridPrimitiveToArray_left_inverse (g : grid) :
  Grid09 g ->
  gridPrimitiveToArray (gridToString g) = g /\
  Grid09 (gridPrimitiveToArray (gridToString g)).
Proof.
  intros Hg. rewrite (gridPrimitiveToArray_gridToString g Hg).
  split; [reflexivity | exact Hg].
Qed.

Lemma gridPrimitiveToArray_left_inverse_witness :
  Grid09 twoWays /\
  gridPrimitiveToArray (gridToString twoWays) = twoWays /\
  Grid09 (gridPrimitiveToArray (gridToString twoWays)).
Proof.
  split; [reflexivity|]. apply (gridPrimitiveToArray_left_inverse twoWays). reflexivity.
Defined.

(** ** C9: termination *)

(** C9.  For a 9x9 grid with cells in [0,9] the recursive solver terminates:
    the grid has at most 81 empty cells, each recursive call is made on a
    grid with strictly fewer empty cells, so a call stack with one frame more
    than there are empty cells is enough, and the call [solveGrid(grid)],
    run with room for 81 calls below the first one, returns. *)
Theorem solveGrid_terminates (g : grid) (prim : option string) :
  Grid09 g ->
  (length (emptyCells g) <= max_depth)%nat /\
  (forall row column n, firstEmpty g = Some (row, column) -> 1 <= n <= 9 ->
     (length (emptyCells (place g row column (Int n))) < length (emptyCells g))%nat) /\
  (forall d, (length (emptyCells g) < d)%nat ->
     exists st, solveGrid_depth d (Store g prim) = Some (Undefined, st)) /\
  (exists st, solveGrid (Store g prim) = Some (Undefined, st)).
Proof.
  intros _. split; [apply emptyCells_length|]. split; [|split].
  - intros row column n Hfirst Hn. destruct (firstEmpty_Some g row column Hfirst) as [rest Hcells].
    rewrite (emptyCells_place g row column rest (Int n) Hcells).
    + rewrite Hcells. simpl. lia.
    + simpl. apply Z.eqb_neq. lia.
  - intros d Hd. eexists. apply solveGrid_depth_spec. exact Hd.
  - eexists. apply solveGrid_spec.
Qed.

Lemma solveGrid_terminates_witness :
  Grid09 twoWays /\
  ((length (emptyCells twoWays) <= max_depth)%nat /\
   (forall row column n, firstEmpty twoWays = Some (row, column) -> 1 <= n <= 9 ->
      (length (emptyCells (place twoWays row column (Int n)))
       < length (emptyCells twoWays))%nat) /\
   (forall d, (length (emptyCells twoWays) < d)%nat ->
      exists st, solveGrid_depth d (Store twoWays None) = Some (Undefined, st)) /\
   (exists st, solveGrid (Store twoWays None) = Some (Undefined, st))).
Proof.
  split; [reflexivity|]. apply (solveGrid_terminates twoWays None). reflexivity.
Defined.

(** ** C5: what [getGridSolution] returns *)

(** C5.  In a process whose earlier calls were all made on 9x9 grids with
    cells in [0,9], a call of [getGridSolution] on such a grid returns, and
    every grid it returns is a solved 9x9 grid: only digits 1 to 9, and each
    of them exactly once in every row, every column and every 3x3 subgrid. *)
Theorem getGridSolution_solution (g : grid) (prim : option string) :
  reachable prim -> Grid09 g ->
  exists out, getGridSolution g prim = Some out /\
    forall sol, returned out = ReturnGrid sol -> is_solution sol.
Proof.
  intros Hreach Hg.
  destruct (getGridSolution_cases g prim) as (out & Hout & _).
  exists out. split; [exact Hout|]. intros sol Hret.
  destruct (returned_grid_snapshot g prim out sol Hg
              (reachable_snapshot_ok prim Hreach) Hout Hret) as (H19 & Hvalid & _).
  apply validateFullGrid_solution; assumption.
Qed.

Lemma getGridSolution_solution_witness :
  reachable None /\ Grid09 oneBlank /\
  exists out, getGridSolution oneBlank None = Some out /\
    forall sol, returned out = ReturnGrid sol -> is_solution sol.
Proof.
  split; [apply reach_fresh|]. split; [reflexivity|].
  apply (getGridSolution_solution oneBlank None); [apply reach_fresh | reflexivity].
Defined.

(** ** C1: which completed grid is reported *)

(** C1, at the failing input.  On [twoWays] the digit 6 is accepted in the
    first empty cell [(0, 3)] and the recursive call on it completes the
    grid: the first-success search of the specification stops there and keeps
    [solved].  The program, against its own comment at lines 74-76 ("the
    function only reaches here if all numbers 1-9 were not solutions"), does
    not stop: it writes 0 back into the cell, tries the remaining digits and
    reaches the [return] of line 77 with the snapshot overwritten by
    [solved'], the grid completed through the digit 7. *)
Lemma solveGrid_does_not_keep_first :
  firstEmpty twoWays = Some (0%nat, 3%nat) /\
  isValidPlacement twoWays (Int 6) 0 3 = true /\
  solveGrid (Store (place twoWays 0 3 (Int 6)) None)
    = Some (Undefined, Store (place twoWays 0 3 (Int 6)) (Some (gridToString solved))) /\
  spec_solve twoWays = Some solved /\
  (exists st, solveGrid (Store twoWays None) = Some (Undefined, st) /\
     cell (st_grid st) 0 3 = Int 0 /\
     st_prim st = Some (gridToString solved') /\
     st_prim st <> Some (gridToString solved)) /\
  (exists out, getGridSolution twoWays None = Some out /\
     returned out = ReturnGrid solved' /\ returned out <> ReturnGrid solved).
Proof.
  split; [reflexivity|]. split; [reflexivity|]. split; [vm_compute; reflexivity|].
  split; [vm_compute; reflexivity|]. split.
  - eexists. split; [vm_compute; reflexivity|]. split; [reflexivity|].
    split; [reflexivity|]. cbn [st_prim]. intros H. vm_compute in H. discriminate H.
  - eexists. split; [vm_compute; reflexivity|]. split; [reflexivity|].
    cbn [returned]. intros H. vm_compute in H. discriminate H.
Qed.

(** The loop of [solveGrid] as it is written: when the recursive call on an
    accepted digit returns, 0 is written back into the cell and the remaining
    digits are tried, whether or not that call completed the grid, and every
    completed grid overwrites [gridPrimitive].  So the call leaves the grid
    as it was, and the snapshot is the last completed grid in row-major,
    ascending-digit order (unchanged when there is none), where the search
    of the specification takes the first. *)
Theorem solveGrid_keeps_last (g : grid) (prim : option string) :
  Grid09 g ->
  (forall row column n ns,
     firstEmpty g = Some (row, column) -> 1 <= n <= 9 ->
     isValidPlacement g (Int n) row column = true ->
     tryNumbers solveGrid row column (n :: ns) (Store g prim) =
     tryNumbers solveGrid row column ns
       (Store g (record_all prim (completions (place g row column (Int n)))))) /\
  solveGrid (Store g prim) =
    Some (Undefined,
          Store g (match last (completions g) with
                   | Some h => Some (gridToString h)
                   | None => prim
                   end)) /\
  spec_solve g = head (completions g).
Proof.
  intros _. split; [|split].
  - intros row column n ns Hfirst Hn Hvalid.
    destruct (firstEmpty_Some g row column Hfirst) as [rest Hcells].
    destruct (emptyCells_head g row column rest Hcells) as (_ & _ & Hz).
    cbn [tryNumbers st_grid st_prim]. rewrite Hvalid, solveGrid_spec.
    cbn [st_grid st_prim]. rewrite (place_undo g row column (Int n) Hz). reflexivity.
  - rewrite solveGrid_spec, record_all_last. reflexivity.
  - apply spec_solve_head.
Qed.

Lemma solveGrid_keeps_last_witness :
  Grid09 twoWays /\
  solveGrid (Store twoWays None) =
    Some (Undefined,
          Store twoWays (match last (completions twoWays) with
                         | Some h => Some (gridToString h)
                         | None => None
                         end)) /\
  spec_solve twoWays = head (completions twoWays).
Proof.
  split; [reflexivity|].
  apply (solveGrid_keeps_last twoWays None). reflexivity.
Defined.

(** ** C2: the caller's grid after the call *)




(** ** C4: the value [solveGrid] returns *)




(** ** C3 and C6: a result left by an earlier call *)

(** C3, at the failing input.  The search on [stuck] completes no grid, and
    in a fresh process [getGridSolution] returns [false] for it.  Called
    after [getGridSolution(solved)] in the same process, it finds the
    snapshot of that call in [gridPrimitive] and returns the grid [solved]
    as the solution of [stuck]. *)
Theorem stale_snapshot_returned :
  completions stuck = [] /\
  (exists out, getGridSolution stuck None = Some out /\ returned out = ReturnFalse) /\
  exists out1 out2,
    getGridSolution solved None = Some out1 /\
    returned out1 = ReturnGrid solved /\
    getGridSolution stuck (st_prim (final out1)) = Some out2 /\
    returned out2 = ReturnGrid solved.
Proof.
  split; [reflexivity|]. split; [apply unsolvable_fresh; reflexivity|].
  eexists. eexists. split; [vm_compute; reflexivity|]. split; [reflexivity|].
  split; [vm_compute; reflexivity | reflexivity].
Qed.

(** C6, at the failing input.  The cell [(0, 1)] of [stuck] holds the clue 1.
    Called after [getGridSolution(solved)] in the same process,
    [getGridSolution(stuck)] returns a grid whose cell [(0, 1)] holds 3. *)
Theorem stale_snapshot_loses_clues :
  exists out1 out2 sol,
    getGridSolution solved None = Some out1 /\
    getGridSolution stuck (st_prim (final out1)) = Some out2 /\
    returned out2 = ReturnGrid sol /\
    cell stuck 0 1 = Int 1 /\ cell sol 0 1 = Int 3.
Proof.
  eexists. eexists. eexists. split; [vm_compute; reflexivity|].
  split; [vm_compute; reflexivity|]. repeat split; reflexivity.
Qed.

(** Clues are kept whenever the returned grid comes from the search of the
    same call: in a call that starts with [gridPrimitive] unset, or whose
    search completes a grid. *)
Lemma clues_kept_own_search (g : grid) prim out sol r c :
  Grid09 g -> prim = None \/ completions g <> [] ->
  getGridSolution g prim = Some out -> returned out = ReturnGrid sol ->
  cell g r c <> Int 0 -> cell sol r c = cell g r c.
Proof.
  intros Hg Hcase Hcall Hret. apply completions_clues.
  eapply returned_grid_completion; eauto.
Qed.

(** * Further properties of the program *)

(** ** [isValidPlacement] *)

(** X1.  A number that the target cell itself holds is rejected: the scan of the
    row does not skip the target cell. *)
Theorem isValidPlacement_rejects_own_cell (g : grid) (z : Z) (row column : nat) :
  Grid09 g -> (row < 9)%nat -> (column < 9)%nat ->
  cell g row column = Int z ->
  isValidPlacement g (Int z) row column = false.
Proof.
  intros Hg Hrow Hcolumn Hcell. apply isValidPlacement_false; [exact Hg | exact Hrow |].
  left. exists column. split; assumption.
Qed.

Lemma isValidPlacement_rejects_own_cell_witness :
  Grid09 solved /\ (2 < 9)%nat /\ (5 < 9)%nat /\ cell solved 2 5 = Int 2 /\
  isValidPlacement solved (Int 2) 2 5 = false.
Proof.
  split; [reflexivity|]. split; [lia|]. split; [lia|]. split; [reflexivity|].
  apply (isValidPlacement_rejects_own_cell solved 2 2 5); [reflexivity | lia | lia | reflexivity].
Defined.

Lemma not_peers (r c r' c' : nat) :
  peers (r, c) (r', c') = false -> (r, c) <> (r', c') ->
  r <> r' /\ c <> c' /\ ((r / 3)%nat <> (r' / 3)%nat \/ (c / 3)%nat <> (c' / 3)%nat).
Proof.
  intros Hpeers Hne.
  assert (H : ~ ((r, c) <> (r', c') /\
                 (r = r' \/ c = c' \/ ((r / 3)%nat = (r' / 3)%nat /\ (c / 3)%nat = (c' / 3)%nat)))).
  { intros H. apply (proj2 (peers_spec (r, c) (r', c'))) in H. congruence. }
  split; [intros ->; apply H; auto|]. split; [intros ->; apply H; auto|].
  destruct (decide ((r / 3)%nat = (r' / 3)%nat)) as [Hr|Hr]; [|left; exact Hr].
  destruct (decide ((c / 3)%nat = (c' / 3)%nat)) as [Hc|Hc]; [|right; exact Hc].
  exfalso. apply H. auto.
Qed.

(** X2.  The verdict depends on the row, the column and the subgrid of the target
    cell only: writing into a cell outside the three leaves it unchanged. *)
Theorem isValidPlacement_frame (g : grid) (z : Z) (row column r c : nat) (v : value) :
  Grid09 g -> in_range 0 9 v = true ->
  (row < 9)%nat -> (column < 9)%nat -> (r < 9)%nat -> (c < 9)%nat ->
  (row, column) <> (r, c) -> peers (row, column) (r, c) = false ->
  isValidPlacement (place g r c v) (Int z) row column
  = isValidPlacement g (Int z) row column.
Proof.
  intros Hg Hv Hrow Hcolumn Hr Hc Hne Hpeers.
  destruct (not_peers row column r c Hpeers Hne) as (Hr' & Hc' & Hbox).
  assert (Hg' : Grid09 (place g r c v)) by (apply grid_ok_place; assumption).
  assert (Hiff : isValidPlacement (place g r c v) (Int z) row column = false <->
                 isValidPlacement g (Int z) row column = false).
  { rewrite (isValidPlacement_false _ z row column Hg' Hrow).
    rewrite (isValidPlacement_false _ z row column Hg Hrow).
    unfold in_row, in_column, in_box.
    assert (Hrowc : forall j, cell (place g r c v) row j = cell g row j).
    { intros j. apply cell_place_ne. congruence. }
    assert (Hcolc : forall i, cell (place g r c v) i column = cell g i column).
    { intros i. apply cell_place_ne. congruence. }
    assert (Hboxc : forall i j,
              (3 * (row / 3) <= i < 3 * (row / 3) + 3)%nat ->
              (3 * (column / 3) <= j < 3 * (column / 3) + 3)%nat ->
              cell (place g r c v) i j = cell g i j).
    { intros i j Hi Hj. apply cell_place_ne. intros Heq. injection Heq as -> ->.
      assert ((i / 3)%nat = (row / 3)%nat) by (apply div3_unique; lia).
      assert ((j / 3)%nat = (column / 3)%nat) by (apply div3_unique; lia).
      destruct Hbox; congruence. }
    split; (intros [(j & Hj & Heq) | [(i & Hi & Heq) | (i & j & Hi & Hj & Heq)]];
      [left; exists j | right; left; exists i | right; right; exists i, j]);
      rewrite ?Hrowc, ?Hcolc in *; try (split; assumption).
    - rewrite Hboxc in Heq by assumption. auto.
    - rewrite Hboxc by assumption. auto. }
  destruct (isValidPlacement (place g r c v) (Int z) row column),
    (isValidPlacement g (Int z) row column); try reflexivity.
  - apply (proj2 Hiff). reflexivity.
  - symmetry. apply (proj1 Hiff). reflexivity.
Qed.

Lemma isValidPlacement_frame_witness :
  Grid09 twoWays /\ in_range 0 9 (Int 6) = true /\
  (0 < 9)%nat /\ (3 < 9)%nat /\ (4 < 9)%nat /\ (7 < 9)%nat /\
  (0%nat, 3%nat) <> (4%nat, 7%nat) /\ peers (0%nat, 3%nat) (4%nat, 7%nat) = false /\
  isValidPlacement (place twoWays 4 7 (Int 6)) (Int 6) 0 3
  = isValidPlacement twoWays (Int 6) 0 3.
Proof.
  split; [reflexivity|]. split; [reflexivity|].
  split; [lia|]. split; [lia|]. split; [lia|]. split; [lia|].
  split; [discriminate|]. split; [reflexivity|].
  apply (isValidPlacement_frame twoWays 6 0 3 4 7 (Int 6));
    [reflexivity | reflexivity | lia | lia | lia | lia | discriminate | reflexivity].
Defined.

(** ** [gridPrimitiveToArray] *)

Lemma fill_row_spec n : forall raw,
  fill_row n raw = (map (fun i => parseIntArg (raw !! i)) (seq 0 n), drop n raw).
Proof.
  induction n as [|n IH]; intros raw; [rewrite drop_0; reflexivity|].
  cbn [fill_row shift seq]. rewrite IH. rewrite <- seq_shift. cbn [map].
  rewrite map_map. f_equal.
  - f_equal; [destruct raw; reflexivity|].
    apply map_ext. intros i. rewrite lookup_tail. reflexivity.
  - destruct raw as [|x raw]; [cbn [tail]; rewrite drop_nil; reflexivity | reflexivity].
Qed.

Lemma fill_rows_spec n : forall raw,
  fill_rows n raw =
  map (fun r => map (fun c => parseIntArg (raw !! (9 * r + c)%nat)) (seq 0 9)) (seq 0 n).
Proof.
  induction n as [|n IH]; intros raw; [reflexivity|].
  cbn [fill_rows]. rewrite fill_row_spec, IH.
  change (seq 0 (S n)) with (0%nat :: seq 1 n). rewrite <- seq_shift. cbn [map].
  rewrite map_map. f_equal. apply map_ext. intros r. apply map_ext. intros c.
  rewrite lookup_drop. f_equal. f_equal. lia.
Qed.

(** X4.  Whatever the text, the result has 9 rows of 9 cells, and the cell
    [(r, c)] is [parseInt] of the piece number [9 * r + c] of the text split
    at the commas: [NaN] when the text has fewer pieces or the piece does not
    start with a number.  Pieces after the 81st are not looked at. *)
Theorem gridPrimitiveToArray_cells (s : string) :
  is9x9 (gridPrimitiveToArray s) = true /\
  forall r c, (r < 9)%nat -> (c < 9)%nat ->
    cell (gridPrimitiveToArray s) r c = parseIntArg (split "," s !! (9 * r + c)%nat).
Proof.
  unfold gridPrimitiveToArray. rewrite fill_rows_spec. split; [reflexivity|].
  intros r c Hr Hc. unfold cell, row_of.
  rewrite list_lookup_fmap, lookup_seq_lt by exact Hr. cbn [fmap option_fmap option_map].
  rewrite list_lookup_fmap, lookup_seq_lt by exact Hc. reflexivity.
Qed.

(** ** Printing and parsing numbers of any size *)

Lemma parse_digits_acc (l : Decimal.uint) : forall acc : positive,
  parse_digits 10 (NilEmpty.string_of_uint l) (Some (Z.pos acc))
  = Some (Z.pos (Pos.of_uint_acc l acc)).
Proof.
  induction l as [|l IH|l IH|l IH|l IH|l IH|l IH|l IH|l IH|l IH|l IH]; intros acc;
    [reflexivity | ..];
    cbn [NilEmpty.string_of_uint parse_digits Pos.of_uint_acc];
    match goal with
    | |- context [digit_of ?c] =>
        let d := eval vm_compute in (digit_of c) in change (digit_of c) with d
    end;
    cbv iota; cbn [Z.ltb Z.compare Pos.compare Pos.compare_cont default from_option id];
    rewrite <- IH; f_equal; f_equal; lia.
Qed.

Lemma parse_digits_zero (l : Decimal.uint) :
  parse_digits 10 (NilEmpty.string_of_uint l) (Some 0)
  = Some (Z.of_N (Pos.of_uint l)).
Proof.
  induction l as [|l IH|l IH|l IH|l IH|l IH|l IH|l IH|l IH|l IH|l IH];
    [reflexivity | exact IH | ..];
    cbn [NilEmpty.string_of_uint parse_digits Pos.of_uint];
    match goal with
    | |- context [digit_of ?c] =>
        let d := eval vm_compute in (digit_of c) in change (digit_of c) with d
    end;
    cbv iota; cbn [Z.ltb Z.compare Pos.compare Pos.compare_cont default from_option id
                   Z.mul Z.add Z.of_N];
    apply parse_digits_acc.
Qed.

Lemma parse_digits_start (l : Decimal.uint) :
  l <> Decimal.Nil ->
  parse_digits 10 (NilEmpty.string_of_uint l) None
  = parse_digits 10 (NilEmpty.string_of_uint l) (Some 0).
Proof. destruct l; [congruence | reflexivity ..]. Qed.

(** A text of decimal digits is parsed in radix 10, without sign. *)
Lemma parseInt_digits (l : Decimal.uint) :
  l <> Decimal.Nil ->
  parseInt (NilEmpty.string_of_uint l)
  = match parse_digits 10 (NilEmpty.string_of_uint l) None with
    | Some n => Int (1 * n)
    | None => NaN
    end.
Proof.
  intros Hl. destruct l as [|l|l|l|l|l|l|l|l|l|l]; [congruence | ..];
    destruct l; reflexivity.
Qed.

Lemma parseInt_minus_digits (l : Decimal.uint) :
  l <> Decimal.Nil ->
  parseInt (String "-" (NilEmpty.string_of_uint l))
  = match parse_digits 10 (NilEmpty.string_of_uint l) None with
    | Some n => Int (-1 * n)
    | None => NaN
    end.
Proof.
  intros Hl. destruct l as [|l|l|l|l|l|l|l|l|l|l]; [congruence | ..];
    destruct l; reflexivity.
Qed.

Lemma parse_digits_pos (p : positive) :
  parse_digits 10 (NilEmpty.string_of_uint (Pos.to_uint p)) None = Some (Z.pos p).
Proof.
  rewrite parse_digits_start by apply DecimalPos.Unsigned.to_uint_nonnil.
  rewrite parse_digits_zero, DecimalPos.Unsigned.of_to. reflexivity.
Qed.

Lemma free_of_digits (l : Decimal.uint) :
  free_of "," (NilEmpty.string_of_uint l) = true.
Proof. induction l; [reflexivity | exact IHl ..]. Qed.

(** Every integer is read back from its decimal text. *)
Lemma int_prints_back (z : Z) : prints_back (Int z).
Proof.
  unfold prints_back, valueToString, NilZero.string_of_int.
  destruct z as [|p|p]; [split; reflexivity | |]; cbn [Z.to_int].
  - pose proof (DecimalPos.Unsigned.to_uint_nonnil p) as Hnil.
    assert (Hstr : NilZero.string_of_uint (Pos.to_uint p)
                   = NilEmpty.string_of_uint (Pos.to_uint p)).
    { unfold NilZero.string_of_uint. destruct (Pos.to_uint p); [congruence | reflexivity ..]. }
    rewrite Hstr. split; [|apply free_of_digits].
    rewrite parseInt_digits by exact Hnil. rewrite parse_digits_pos. reflexivity.
  - pose proof (DecimalPos.Unsigned.to_uint_nonnil p) as Hnil.
    assert (Hstr : NilZero.string_of_uint (Pos.to_uint p)
                   = NilEmpty.string_of_uint (Pos.to_uint p)).
    { unfold NilZero.string_of_uint. destruct (Pos.to_uint p); [congruence | reflexivity ..]. }
    rewrite Hstr. split; [|apply free_of_digits].
    rewrite parseInt_minus_digits by exact Hnil. rewrite parse_digits_pos. reflexivity.
Qed.

Lemma roundtrip_prints_back (g : grid) :
  length g = 9%nat ->
  (forall l, In l g -> length l = 9%nat /\ forall v, In v l -> prints_back v) ->
  gridPrimitiveToArray (gridToString g) = g.
Proof.
  intros Hlen Hrows. unfold gridPrimitiveToArray, gridToString.
  rewrite <- (map_map (map valueToString) (join ",")).
  rewrite join_rows.
  2:{ apply Forall_forall. intros t Ht. apply list_elem_of_In in Ht.
      apply in_map_iff in Ht as (l & <- & Hl).
      destruct (Hrows l Hl) as [Hl9 _]. destruct l; discriminate. }
  rewrite (split_join ","%char).
  - rewrite <- Hlen. apply fill_rows_concat. apply Forall_forall. intros l Hl.
    apply list_elem_of_In in Hl. destruct (Hrows l Hl) as [Hl9 Hcells].
    split; [exact Hl9|]. apply Forall_forall. intros v Hv.
    apply Hcells, list_elem_of_In, Hv.
  - destruct g as [|l g]; [discriminate|].
    destruct (Hrows l (or_introl eq_refl)) as [Hl9 _]. destruct l; discriminate.
  - apply Forall_forall. intros t Ht. apply list_elem_of_In in Ht.
    apply in_concat in Ht as (ts & Hts & Ht).
    apply in_map_iff in Hts as (l & <- & Hl).
    apply in_map_iff in Ht as (v & <- & Hv).
    destruct (Hrows l Hl) as [_ Hcells]. apply (Hcells v Hv).
Qed.

(** X5.  The snapshot reads back for every 9x9 grid of integers, of any number of
    digits and of either sign, not for digits only. *)
Theorem gridPrimitiveToArray_integers (g : grid) :
  GridInt g -> gridPrimitiveToArray (gridToString g) = g.
Proof.
  intros Hg. apply grid_ok_spec in Hg as [Hlen Hrows].
  apply roundtrip_prints_back; [exact Hlen|]. intros l Hl.
  destruct (Hrows l Hl) as [Hl9 Hcells]. split; [exact Hl9|]. intros v Hv.
  destruct (proj1 (in_range_spec _ _ v) (Hcells v Hv)) as (z & -> & _).
  apply int_prints_back.
Qed.

Lemma gridPrimitiveToArray_integers_witness :
  GridInt wide /\ gridPrimitiveToArray (gridToString wide) = wide.
Proof.
  split; [reflexivity|]. apply (gridPrimitiveToArray_integers wide). reflexivity.
Defined.

(** ** [validateFullGrid] on grids that are not grids of digits *)

Lemma strict_eq_eq a b : strict_eq a b = true -> a = b.
Proof.
  destruct a, b; simpl; try discriminate; try reflexivity.
  - intros H. apply Bool.eqb_prop in H. congruence.
  - intros H. apply Z.eqb_eq in H. congruence.
Qed.

Lemma is9x9_spec (g : grid) :
  is9x9 g = true <-> length g = 9%nat /\ forall l, In l g -> length l = 9%nat.
Proof.
  unfold is9x9. rewrite andb_true_iff, Nat.eqb_eq, forallb_forall.
  split; intros [H1 H2]; (split; [exact H1|]); intros l Hl.
  - apply Nat.eqb_eq, H2, Hl.
  - apply Nat.eqb_eq, H2, Hl.
Qed.

Lemma grid_ok_is9x9 lo hi (g : grid) : grid_ok lo hi g = true -> is9x9 g = true.
Proof.
  intros H. apply grid_ok_spec in H as [Hlen Hrows]. apply is9x9_spec.
  split; [exact Hlen|]. intros l Hl. apply (Hrows l Hl).
Qed.

Lemma is9x9_row (g : grid) r :
  is9x9 g = true -> (r < 9)%nat ->
  length (row_of g r) = 9%nat /\ row_of g r = map (fun c => cell g r c) (range 0 9).
Proof.
  intros Hg Hr. apply is9x9_spec in Hg as [Hlen Hrows].
  destruct (lookup_lt_is_Some_2 g r) as [l Hl]; [lia|].
  assert (Hl9 : length l = 9%nat).
  { apply Hrows. apply list_elem_of_In. eapply list_elem_of_lookup_2; eauto. }
  unfold cell, row_of. rewrite Hl. split; [exact Hl9|].
  apply list_eq. intros c. unfold range.
  destruct (decide (c < 9)%nat) as [Hc|Hc].
  - rewrite list_lookup_fmap, lookup_seq_lt by lia. simpl.
    destruct (lookup_lt_is_Some_2 l c) as [v Hv]; [lia|]. rewrite Hv. reflexivity.
  - rewrite !lookup_ge_None_2; [reflexivity | rewrite length_map, length_seq; lia | lia].
Qed.

Lemma is9x9_place (g : grid) r c v : is9x9 g = true -> is9x9 (place g r c v) = true.
Proof.
  intros Hg. apply is9x9_spec in Hg as [Hlen Hrows]. apply is9x9_spec.
  unfold place. rewrite length_alter. split; [exact Hlen|].
  intros l Hl. apply list_elem_of_In, list_elem_of_lookup in Hl as [i Hi].
  destruct (decide (r = i)) as [->|Hne].
  - rewrite list_lookup_alter_eq in Hi.
    destruct (g !! i) as [l0|] eqn:Hg; [|discriminate].
    simpl in Hi. injection Hi as <-. rewrite length_insert.
    apply Hrows. apply list_elem_of_In. eapply list_elem_of_lookup_2; eauto.
  - rewrite list_lookup_alter_ne in Hi by exact Hne.
    apply Hrows. apply list_elem_of_In. eapply list_elem_of_lookup_2; eauto.
Qed.

(** [validateFullGrid] accepts every 9x9 grid in which peers differ,
    whatever the cells hold. *)
Lemma peers_differ_validate (g : grid) :
  is9x9 g = true -> peers_differ g -> validateFullGrid g = true.
Proof.
  intros Hg Hdiff. unfold validateFullGrid, range.
  assert (Hpair : forall r c r' c', (r < 9)%nat -> (c < 9)%nat -> (r' < 9)%nat ->
            (c' < 9)%nat -> peers (r, c) (r', c') = true -> cell g r c <> cell g r' c').
  { intros r c r' c' Hr Hc Hr' Hc' Hp.
    apply (Hdiff (r, c) (r', c')); try (apply positions_spec; lia). exact Hp. }
  set (A := forallb _ (seq 0 9)) at 1. set (B := forallb _ (seq 0 9)) at 1.
  assert (HA : A = true).
  { unfold A. apply forallb_forall. intros i Hi. apply in_seq in Hi.
    destruct (is9x9_row g i Hg) as [Hlen Hrow]; [lia|].
    apply Nat.eqb_eq. rewrite <- Hlen. apply newSet_length. rewrite Hrow.
    apply NoDup_map_inj; [apply NoDup_ListNoDup, List.seq_NoDup|].
    intros c c' Hc Hc' Heq. apply in_seq in Hc, Hc'.
    destruct (decide (c = c')) as [->|Hne]; [reflexivity|]. exfalso.
    apply (Hpair i c i c'); try lia; try exact Heq.
    apply peers_spec. cbn [fst snd]. split; [congruence | auto]. }
  assert (HB : B = true).
  { unfold B. apply forallb_forall. intros j Hj. apply in_seq in Hj.
    apply Nat.eqb_eq.
    transitivity (length (map (fun row => cell g row j) (seq 0 9)));
      [|rewrite length_map, length_seq; reflexivity].
    apply newSet_length.
    apply NoDup_map_inj; [apply NoDup_ListNoDup, List.seq_NoDup|].
    intros r r' Hr Hr' Heq. apply in_seq in Hr, Hr'.
    destruct (decide (r = r')) as [->|Hne]; [reflexivity|]. exfalso.
    apply (Hpair r j r' j); try lia; try exact Heq.
    apply peers_spec. cbn [fst snd]. split; [congruence | auto]. }
  rewrite HA, HB. cbn [negb]. cbv iota.
  apply forallb_forall. intros column Hc. apply in_seq in Hc.
  apply forallb_forall. intros row Hr. apply in_seq in Hr. cbn zeta.
  apply forallb_forall. intros tempRow Htr. apply in_seq in Htr.
  apply forallb_forall. intros tempColumn Htc. apply in_seq in Htc.
  apply negb_true_iff.
  destruct (strict_eq (cell g row column) (cell g tempRow tempColumn)) eqn:Heq;
    [|reflexivity].
  apply strict_eq_eq in Heq. cbn [andb].
  pose proof (div3_bounds row). pose proof (div3_bounds column).
  destruct (decide ((row, column) = (tempRow, tempColumn))) as [Hpq|Hpq].
  - injection Hpq as -> ->. rewrite !Nat.eqb_refl. reflexivity.
  - exfalso. apply (Hpair row column tempRow tempColumn); try lia; try exact Heq.
    apply peers_spec. cbn [fst snd]. split; [exact Hpq|]. right. right.
    split; symmetry; apply div3_unique; lia.
Qed.

(** In a solved grid the cells of any two peers differ. *)
Lemma solution_peers_differ (g : grid) : is_solution g -> peers_differ g.
Proof.
  intros Hsol. pose proof Hsol as (Hg & _).
  apply (distinct_is_solution g Hg) in Hsol as (Hrows & Hcols & Hboxes).
  intros [r c] [r' c'] Hp Hq Hpeers Heq. cbn [fst snd] in Heq.
  apply positions_spec in Hp as [Hr Hc]. apply positions_spec in Hq as [Hr' Hc'].
  apply peers_spec in Hpeers as [Hne Hunit]. cbn [fst snd] in Hunit.
  apply Hne. destruct Hunit as [<- | [<- | [Hbr Hbc]]].
  - f_equal. specialize (Hrows r Hr). rewrite (row_of_cells 1 9 g r Hg Hr) in Hrows.
    apply (proj1 (NoDup_map_inj _ _ (proj2 (NoDup_ListNoDup _) (List.seq_NoDup 9 0))) Hrows);
      try (apply in_seq; lia). exact Heq.
  - f_equal. specialize (Hcols c Hc). unfold column_of in Hcols.
    apply (proj1 (NoDup_map_inj _ _ (proj2 (NoDup_ListNoDup _) (List.seq_NoDup 9 0))) Hcols);
      try (apply in_seq; lia). exact Heq.
  - apply box_check_distinct in Hboxes.
    pose proof (div3_bounds r'). pose proof (div3_bounds c').
    destruct (Hboxes r c r' c') as [-> ->]; try assumption; try lia. reflexivity.
Qed.

(** X6.  The validator does not check that the cells are digits: a solved grid in
    which one cell is overwritten by any value that is not a digit from 1 to
    9 (0, [NaN], [undefined], 10, ...) still passes. *)
Theorem validateFullGrid_accepts_non_digit (g : grid) (r c : nat) (v : value) :
  Grid19 g -> validateFullGrid g = true -> (r < 9)%nat -> (c < 9)%nat ->
  in_range 1 9 v = false ->
  validateFullGrid (place g r c v) = true.
Proof.
  intros Hg Hvalid Hr Hc Hv.
  pose proof (solution_peers_differ g (proj1 (validateFullGrid_solution g Hg) Hvalid))
    as Hdiff.
  assert (Hlen : (c < length (row_of g r))%nat).
  { destruct (grid_ok_row 1 9 g r Hg Hr) as (_ & Hl & _). lia. }
  assert (Hdigit : forall r' c', (r' < 9)%nat -> (c' < 9)%nat -> cell g r' c' <> v).
  { intros r' c' Hr' Hc' Heq.
    destruct (grid_ok_cell 1 9 g r' c' Hg Hr' Hc') as [_ Hin]. congruence. }
  apply peers_differ_validate.
  - apply is9x9_place. eapply grid_ok_is9x9. exact Hg.
  - intros [pr pc] [qr qc] Hp Hq Hpeers. cbn [fst snd].
    assert (Hpq : (pr, pc) <> (qr, qc)) by (apply peers_spec in Hpeers; tauto).
    pose proof Hp as Hp'. pose proof Hq as Hq'.
    apply positions_spec in Hp' as [Hpr Hpc]. apply positions_spec in Hq' as [Hqr Hqc].
    destruct (decide ((r, c) = (pr, pc))) as [Hp0|Hp0];
      destruct (decide ((r, c) = (qr, qc))) as [Hq0|Hq0].
    + congruence.
    + injection Hp0 as <- <-. rewrite cell_place_eq by exact Hlen.
      rewrite cell_place_ne by exact Hq0. intros Heq. apply (Hdigit qr qc); auto.
    + injection Hq0 as <- <-. rewrite cell_place_eq by exact Hlen.
      rewrite cell_place_ne by exact Hp0. apply Hdigit; assumption.
    + rewrite !cell_place_ne by assumption. apply (Hdiff (pr, pc) (qr, qc)); assumption.
Qed.

Lemma validateFullGrid_accepts_non_digit_witness :
  Grid19 solved /\ validateFullGrid solved = true /\ (4 < 9)%nat /\ (4 < 9)%nat /\
  in_range 1 9 (Int 0) = false /\
  validateFullGrid (place solved 4 4 (Int 0)) = true.
Proof.
  split; [reflexivity|]. split; [vm_compute; reflexivity|].
  split; [lia|]. split; [lia|]. split; [reflexivity|].
  apply (validateFullGrid_accepts_non_digit solved 4 4 (Int 0));
    [reflexivity | vm_compute; reflexivity | lia | lia | reflexivity].
Defined.

(** ** What the search finds *)

Lemma keeps_clues_spec (g h : grid) :
  keeps_clues g h = true <->
  forall r c, (r < 9)%nat -> (c < 9)%nat -> cell g r c <> Int 0 ->
    cell h r c = cell g r c.
Proof.
  unfold keeps_clues. rewrite forallb_forall. split.
  - intros H r c Hr Hc Hne. specialize (H (r, c) (proj2 (positions_spec r c) (conj Hr Hc))).
    cbn beta iota in H. apply orb_true_iff in H as [H | H].
    + apply strict_eq_Int_r in H. contradiction.
    + apply same_value_zero_eq in H. congruence.
  - intros H [r c] Hp. apply positions_spec in Hp as [Hr Hc]. cbn beta iota.
    destruct (strict_eq (cell g r c) (Int 0)) eqn:Hz; [reflexivity|]. cbn [orb].
    apply same_value_zero_eq. symmetry. apply H; try assumption.
    intros Heq. rewrite Heq in Hz. discriminate.
Qed.

Lemma Grid19_no_empty (g : grid) : Grid19 g -> emptyCells g = [].
Proof.
  intros Hg. destruct (emptyCells g) as [|[r c] rest] eqn:Hcells; [reflexivity|].
  destruct (emptyCells_head g r c rest Hcells) as (Hr & Hc & Hz).
  destruct (grid_ok_cell 1 9 g r c Hg Hr Hc) as [_ Hin].
  rewrite Hz in Hin. discriminate.
Qed.

(** Two 9x9 grids with the same cells are the same grid. *)
Lemma grid_ext (g h : grid) :
  is9x9 g = true -> is9x9 h = true ->
  (forall r c, (r < 9)%nat -> (c < 9)%nat -> cell g r c = cell h r c) -> g = h.
Proof.
  intros Hg Hh Hcells.
  pose proof (proj1 (is9x9_spec g) Hg) as [Hlg _].
  pose proof (proj1 (is9x9_spec h) Hh) as [Hlh _].
  apply list_eq. intros r. destruct (decide (r < 9)%nat) as [Hr|Hr].
  - destruct (is9x9_row g r Hg Hr) as [_ Hrg]. destruct (is9x9_row h r Hh Hr) as [_ Hrh].
    destruct (lookup_lt_is_Some_2 g r) as [lg Hlgr]; [lia|].
    destruct (lookup_lt_is_Some_2 h r) as [lh Hlhr]; [lia|].
    unfold row_of in Hrg, Hrh. rewrite Hlgr in Hrg. rewrite Hlhr in Hrh.
    rewrite Hlgr, Hlhr, Hrg, Hrh. f_equal. apply map_ext_in. intros c Hc.
    apply in_seq in Hc. apply Hcells; lia.
  - rewrite !lookup_ge_None_2 by lia. reflexivity.
Qed.

(** Clues that a solved grid keeps are free of conflicts. *)
Lemma solution_conflict_free (g h : grid) :
  is_solution h -> keeps_clues g h = true -> conflict_free g = true.
Proof.
  intros Hsol Hkeep. rewrite keeps_clues_spec in Hkeep.
  pose proof (solution_peers_differ h Hsol) as Hdiff.
  apply conflict_free_spec. intros [r c] [r' c'] Hp Hq Hne Hpeers. cbn [fst snd] in *.
  destruct (strict_eq (cell g r c) (cell g r' c')) eqn:Heq; [|reflexivity].
  apply strict_eq_eq in Heq. exfalso.
  pose proof Hp as Hp'. pose proof Hq as Hq'.
  apply positions_spec in Hp' as [Hr Hc]. apply positions_spec in Hq' as [Hr' Hc'].
  apply (Hdiff (r, c) (r', c') Hp Hq Hpeers). cbn [fst snd].
  rewrite (Hkeep r c Hr Hc Hne), (Hkeep r' c' Hr' Hc') by congruence. exact Heq.
Qed.

(** The search misses no solution: every solved grid that keeps the clues is
    among the completed grids. *)
Lemma solution_in_completions (h : grid) :
  is_solution h ->
  forall cells g, emptyCells g = cells -> Grid09 g -> keeps_clues g h = true ->
  In h (fillings cells g).
Proof.
  intros Hsol. pose proof Hsol as (Hh & _).
  pose proof (solution_peers_differ h Hsol) as Hdiff.
  induction cells as [|[r c] rest IH]; intros g Hcells Hg Hkeep.
  - left. rewrite keeps_clues_spec in Hkeep.
    apply grid_ext; [eapply grid_ok_is9x9; eauto | eapply grid_ok_is9x9; eauto |].
    intros r c Hr Hc. symmetry. apply Hkeep; try assumption. intros Hz.
    assert (Hin : In (r, c) (emptyCells g)) by (apply emptyCells_In; auto).
    rewrite Hcells in Hin. destruct Hin.
  - destruct (emptyCells_head g r c rest Hcells) as (Hr & Hc & Hz).
    destruct (grid_ok_cell 1 9 h r c Hh Hr Hc) as [_ Hin].
    apply in_range_spec in Hin as (n & Hn & Hn19).
    pose proof Hkeep as Hkeep'. rewrite keeps_clues_spec in Hkeep'.
    assert (Hvalid : isValidPlacement g (Int n) r c = true).
    { destruct (isValidPlacement g (Int n) r c) eqn:Hv; [reflexivity|]. exfalso.
      apply (isValidPlacement_false g n r c Hg Hr) in Hv.
      assert (Hq : exists r' c', (r' < 9)%nat /\ (c' < 9)%nat /\
                    cell g r' c' = Int n /\ peers (r, c) (r', c') = true).
      { assert (Hne : forall r' c', cell g r' c' = Int n -> (r, c) <> (r', c')).
        { intros r' c' Hcell Heq. injection Heq as <- <-.
          rewrite Hz in Hcell. injection Hcell as <-. lia. }
        destruct Hv as [(j & Hj & Hcell) | [(i & Hi & Hcell) | (i & j & Hi & Hj & Hcell)]].
        - exists r, j. repeat split; try assumption. apply peers_spec.
          cbn [fst snd]. split; [apply Hne; exact Hcell | auto].
        - exists i, c. repeat split; try assumption. apply peers_spec.
          cbn [fst snd]. split; [apply Hne; exact Hcell | auto].
        - pose proof (div3_bounds r). pose proof (div3_bounds c).
          exists i, j. split; [lia|]. split; [lia|]. split; [exact Hcell|].
          apply peers_spec. cbn [fst snd]. split; [apply Hne; exact Hcell|].
          right. right. split; symmetry; apply div3_unique; lia. }
      destruct Hq as (r' & c' & Hr' & Hc' & Hcell & Hpeers).
      apply (Hdiff (r, c) (r', c')); try (apply positions_spec; lia); try exact Hpeers.
      assert (Hne0 : cell g r' c' <> Int 0).
      { rewrite Hcell. intros H0. injection H0 as H0. lia. }
      cbn [fst snd]. rewrite Hn, (Hkeep' r' c' Hr' Hc' Hne0).
      symmetry. exact Hcell. }
    cbn [fillings]. apply in_flat_map. exists n.
    split; [apply numbersToTry_spec; exact Hn19|]. rewrite Hvalid.
    apply IH.
    + eapply emptyCells_place; [exact Hcells|]. simpl. apply Z.eqb_neq. lia.
    + apply grid_ok_place; [exact Hg|]. apply in_range_spec.
      exists n. split; [reflexivity | lia].
    + apply keeps_clues_spec. intros r0 c0 Hr0 Hc0 Hne.
      destruct (decide ((r, c) = (r0, c0))) as [Heq|Heq].
      * injection Heq as <- <-. rewrite cell_place_eq; [exact Hn|].
        destruct (grid_ok_row 0 9 g r Hg Hr) as (_ & Hl & _). lia.
      * rewrite cell_place_ne in Hne |- * by exact Heq. apply Hkeep'; assumption.
Qed.

(** For clues without conflict the completed grids are exactly the solved
    grids that keep the clues. *)
Lemma completions_are_solutions (g h : grid) :
  Grid09 g -> conflict_free g = true ->
  In h (completions g) <-> is_solution h /\ keeps_clues g h = true.
Proof.
  intros Hg Hfree. split.
  - intros Hh. split; [eapply completions_solution; eauto|].
    apply keeps_clues_spec. intros r c _ _. apply completions_clues. exact Hh.
  - intros [Hsol Hkeep]. apply (solution_in_completions h Hsol); auto.
Qed.

(** ** [getGridSolution] *)

(** A call whose search completes a grid: the outcome is decided by the last
    completed grid alone. *)
Lemma getGridSolution_last (g h : grid) prim :
  Grid09 g -> last (completions g) = Some h ->
  getGridSolution g prim =
  Some (if validateFullGrid h
        then Outcome (ReturnGrid h) (Store g (Some (gridToString h))) []
        else Outcome ReturnFalse (Store g (Some (gridToString h)))
               ["There are no valid solutions to this sudoku."%string]).
Proof.
  intros Hg Hlast.
  assert (Hh : Grid19 h).
  { apply (completions_full g h Hg). apply list_elem_of_In.
    apply last_Some_elem_of. exact Hlast. }
  unfold getGridSolution. rewrite solveGrid_spec, record_all_last, Hlast.
  cbn [st_prim]. rewrite (gridToString_truthy h Hh). cbn [default from_option id].
  rewrite gridPrimitiveToArray_gridToString
    by (apply (grid_ok_weaken 1 9 0 9); [lia | lia | exact Hh]).
  destruct (validateFullGrid h); reflexivity.
Qed.

(** A call whose search completes no grid: the outcome is decided by what
    [gridPrimitive] held before the call. *)
Lemma getGridSolution_none (g : grid) prim :
  completions g = [] ->
  getGridSolution g prim =
  Some (if is_falsy prim
        then Outcome ReturnFalse (Store g prim)
               ["Sudoku solution could not be calculated."%string]
        else if validateFullGrid (gridPrimitiveToArray (default ""%string prim))
        then Outcome (ReturnGrid (gridPrimitiveToArray (default ""%string prim)))
               (Store g prim) []
        else Outcome ReturnFalse (Store g prim)
               ["There are no valid solutions to this sudoku."%string]).
Proof.
  intros Hnil. unfold getGridSolution. rewrite solveGrid_spec, Hnil.
  cbn [record_all fold_left st_prim]. destruct (is_falsy prim); [reflexivity|].
  destruct (validateFullGrid _); reflexivity.
Qed.

Lemma last_of_nonempty {A : Type} (l : list A) x : In x l -> exists y, last l = Some y.
Proof.
  intros Hx. destruct (last l) as [y|] eqn:Hl; [exists y; reflexivity|].
  apply last_None in Hl. subst. destruct Hx.
Qed.

(** X7.  Completeness.  If the puzzle has a solution, [getGridSolution] returns a
    solution of it: a solved grid that keeps the clues.  The returned grid is
    the same whatever [gridPrimitive] held before the call, nothing is
    written to the console, and the caller's grid is left as it was. *)
Theorem getGridSolution_finds_solution (g h : grid) :
  Grid09 g -> is_solution h -> keeps_clues g h = true ->
  exists sol, is_solution sol /\ keeps_clues g sol = true /\
    forall prim,
      getGridSolution g prim
      = Some (Outcome (ReturnGrid sol) (Store g (Some (gridToString sol))) []).
Proof.
  intros Hg Hsol Hkeep.
  pose proof (solution_conflict_free g h Hsol Hkeep) as Hfree.
  pose proof (proj2 (completions_are_solutions g h Hg Hfree) (conj Hsol Hkeep)) as Hin.
  destruct (last_of_nonempty _ _ Hin) as [sol Hlast].
  assert (Hsolin : In sol (completions g)).
  { apply list_elem_of_In. apply last_Some_elem_of. exact Hlast. }
  apply (completions_are_solutions g sol Hg Hfree) in Hsolin as [Hsol' Hkeep'].
  exists sol. split; [exact Hsol'|]. split; [exact Hkeep'|]. intros prim.
  rewrite (getGridSolution_last g sol prim Hg Hlast).
  destruct Hsol' as [H19 Hunits].
  rewrite (proj2 (validateFullGrid_solution sol H19) (conj H19 Hunits)). reflexivity.
Qed.

Lemma solved_is_solution : is_solution solved.
Proof. apply validateFullGrid_solution; [reflexivity | vm_compute; reflexivity]. Qed.

Lemma getGridSolution_finds_solution_witness :
  Grid09 twoWays /\ is_solution solved /\ keeps_clues twoWays solved = true /\
  exists sol, is_solution sol /\ keeps_clues twoWays sol = true /\
    forall prim,
      getGridSolution twoWays prim
      = Some (Outcome (ReturnGrid sol) (Store twoWays (Some (gridToString sol))) []).
Proof.
  split; [reflexivity|]. split; [exact solved_is_solution|]. split; [reflexivity|].
  apply (getGridSolution_finds_solution twoWays solved);
    [reflexivity | exact solved_is_solution | reflexivity].
Defined.

(** X8.  A puzzle with exactly one solution: [getGridSolution] returns that
    solution, whatever [gridPrimitive] held before the call. *)
Theorem getGridSolution_unique_solution (g h : grid) (prim : option string) :
  Grid09 g -> is_solution h -> keeps_clues g h = true ->
  (forall h', is_solution h' -> keeps_clues g h' = true -> h' = h) ->
  getGridSolution g prim
  = Some (Outcome (ReturnGrid h) (Store g (Some (gridToString h))) []).
Proof.
  intros Hg Hsol Hkeep Hunique.
  pose proof (solution_conflict_free g h Hsol Hkeep) as Hfree.
  pose proof (proj2 (completions_are_solutions g h Hg Hfree) (conj Hsol Hkeep)) as Hin.
  destruct (last_of_nonempty _ _ Hin) as [sol Hlast].
  assert (Hsolin : In sol (completions g)).
  { apply list_elem_of_In. apply last_Some_elem_of. exact Hlast. }
  apply (completions_are_solutions g sol Hg Hfree) in Hsolin as [Hsol' Hkeep'].
  rewrite (Hunique sol Hsol' Hkeep') in Hlast.
  rewrite (getGridSolution_last g h prim Hg Hlast).
  destruct Hsol as [H19 Hunits].
  rewrite (proj2 (validateFullGrid_solution h H19) (conj H19 Hunits)). reflexivity.
Qed.

Lemma oneBlank_unique (h : grid) :
  is_solution h -> keeps_clues oneBlank h = true -> h = solved.
Proof.
  intros Hsol Hkeep.
  pose proof (solution_in_completions h Hsol _ oneBlank eq_refl eq_refl Hkeep) as Hin.
  vm_compute in Hin. destruct Hin as [<-|[]]. reflexivity.
Qed.

Lemma getGridSolution_unique_solution_witness :
  Grid09 oneBlank /\ is_solution solved /\ keeps_clues oneBlank solved = true /\
  (forall h', is_solution h' -> keeps_clues oneBlank h' = true -> h' = solved) /\
  getGridSolution oneBlank (Some "stale"%string)
  = Some (Outcome (ReturnGrid solved) (Store oneBlank (Some (gridToString solved))) []).
Proof.
  split; [reflexivity|]. split; [exact solved_is_solution|]. split; [reflexivity|].
  split; [exact oneBlank_unique|].
  apply (getGridSolution_unique_solution oneBlank solved (Some "stale"%string));
    [reflexivity | exact solved_is_solution | reflexivity | exact oneBlank_unique].
Defined.

(** X9.  On a grid without empty cell [getGridSolution] is the validator: it
    returns the grid itself when [validateFullGrid] accepts it and [false]
    otherwise, whatever [gridPrimitive] held before, and it leaves the text
    of the grid in [gridPrimitive] in both cases. *)
Theorem getGridSolution_full_grid (g : grid) (prim : option string) :
  Grid19 g ->
  getGridSolution g prim =
  Some (if validateFullGrid g
        then Outcome (ReturnGrid g) (Store g (Some (gridToString g))) []
        else Outcome ReturnFalse (Store g (Some (gridToString g)))
               ["There are no valid solutions to this sudoku."%string]).
Proof.
  intros Hg. apply getGridSolution_last.
  - apply (grid_ok_weaken 1 9 0 9); [lia | lia | exact Hg].
  - unfold completions. rewrite (Grid19_no_empty g Hg). reflexivity.
Qed.

Lemma getGridSolution_full_grid_witness :
  Grid19 solved /\
  getGridSolution solved None =
  Some (if validateFullGrid solved
        then Outcome (ReturnGrid solved) (Store solved (Some (gridToString solved))) []
        else Outcome ReturnFalse (Store solved (Some (gridToString solved)))
               ["There are no valid solutions to this sudoku."%string]).
Proof.
  split; [reflexivity|]. apply (getGridSolution_full_grid solved None). reflexivity.
Defined.

(** X10.  Clues that clash.  When two filled cells of the input that share a row,
    a column or a subgrid hold the same digit, a call that starts with
    [gridPrimitive] unset returns [false]: either the search completes no
    grid, or it completes grids, leaves the last one in [gridPrimitive], and
    the validator rejects it. *)
Theorem getGridSolution_clashing_clues (g : grid) :
  Grid09 g -> conflict_free g = false ->
  exists out, getGridSolution g None = Some out /\
    returned out = ReturnFalse /\ st_grid (final out) = g /\
    (console out = ["Sudoku solution could not be calculated."%string] /\
     st_prim (final out) = None \/
     console out = ["There are no valid solutions to this sudoku."%string] /\
     exists h, Grid19 h /\ keeps_clues g h = true /\ validateFullGrid h = false /\
       st_prim (final out) = Some (gridToString h)).
Proof.
  intros Hg Hclash.
  destruct (last (completions g)) as [h|] eqn:Hlast.
  - assert (Hin : In h (completions g)).
    { apply list_elem_of_In. apply last_Some_elem_of. exact Hlast. }
    pose proof (completions_full g h Hg Hin) as Hh.
    assert (Hkeep : keeps_clues g h = true).
    { apply keeps_clues_spec. intros r c _ _. apply completions_clues. exact Hin. }
    assert (Hvalid : validateFullGrid h = false).
    { destruct (validateFullGrid h) eqn:Hv; [|reflexivity].
      apply (validateFullGrid_solution h Hh) in Hv.
      rewrite (solution_conflict_free g h Hv Hkeep) in Hclash. discriminate. }
    rewrite (getGridSolution_last g h None Hg Hlast), Hvalid.
    eexists. split; [reflexivity|]. split; [reflexivity|]. split; [reflexivity|].
    right. split; [reflexivity|]. exists h. auto.
  - apply last_None in Hlast. rewrite (getGridSolution_none g None Hlast).
    eexists. split; [reflexivity|]. split; [reflexivity|]. split; [reflexivity|].
    left. split; reflexivity.
Qed.

Lemma getGridSolution_clashing_clues_witness :
  Grid09 clash /\ conflict_free clash = false /\
  exists out, getGridSolution clash None = Some out /\
    returned out = ReturnFalse /\ st_grid (final out) = clash /\
    (console out = ["Sudoku solution could not be calculated."%string] /\
     st_prim (final out) = None \/
     console out = ["There are no valid solutions to this sudoku."%string] /\
     exists h, Grid19 h /\ keeps_clues clash h = true /\ validateFullGrid h = false /\
       st_prim (final out) = Some (gridToString h)).
Proof.
  split; [reflexivity|]. split; [vm_compute; reflexivity|].
  apply (getGridSolution_clashing_clues clash); [reflexivity | vm_compute; reflexivity].
Defined.

(** X11.  Called with [gridPrimitive] unset on a puzzle that has no solution,
    [getGridSolution] returns [false] and leaves the caller's grid as it
    was. *)
Theorem getGridSolution_no_solution (g : grid) :
  Grid09 g ->
  (forall h, is_solution h -> keeps_clues g h = true -> False) ->
  exists out, getGridSolution g None = Some out /\
    returned out = ReturnFalse /\ st_grid (final out) = g /\ length (console out) = 1%nat.
Proof.
  intros Hg Hnone.
  destruct (last (completions g)) as [h|] eqn:Hlast.
  - assert (Hin : In h (completions g)).
    { apply list_elem_of_In. apply last_Some_elem_of. exact Hlast. }
    pose proof (completions_full g h Hg Hin) as Hh.
    assert (Hkeep : keeps_clues g h = true).
    { apply keeps_clues_spec. intros r c _ _. apply completions_clues. exact Hin. }
    assert (Hvalid : validateFullGrid h = false).
    { destruct (validateFullGrid h) eqn:Hv; [|reflexivity]. exfalso.
      apply (Hnone h); [apply (validateFullGrid_solution h Hh); exact Hv | exact Hkeep]. }
    rewrite (getGridSolution_last g h None Hg Hlast), Hvalid.
    eexists. repeat split; reflexivity.
  - apply last_None in Hlast. rewrite (getGridSolution_none g None Hlast).
    eexists. repeat split; reflexivity.
Qed.

Lemma stuck_no_solution (h : grid) : is_solution h -> keeps_clues stuck h = true -> False.
Proof.
  intros Hsol Hkeep.
  pose proof (solution_in_completions h Hsol _ stuck eq_refl eq_refl Hkeep) as Hin.
  vm_compute in Hin. exact Hin.
Qed.

Lemma getGridSolution_no_solution_witness :
  Grid09 stuck /\
  (forall h, is_solution h -> keeps_clues stuck h = true -> False) /\
  exists out, getGridSolution stuck None = Some out /\
    returned out = ReturnFalse /\ st_grid (final out) = stuck /\
    length (console out) = 1%nat.
Proof.
  split; [reflexivity|]. split; [exact stuck_no_solution|].
  apply (getGridSolution_no_solution stuck); [reflexivity | exact stuck_no_solution].
Defined.

(** X12.  A result that outlives its call.  When a call has returned a grid,
    the call made next, on a puzzle whose clues do not clash and that has no
    solution, returns that same grid again instead of [false], and leaves
    [gridPrimitive] as it found it: the search completes nothing and
    [gridPrimitive] still holds the snapshot of the call before. *)
Theorem getGridSolution_returns_earlier_result
    (g1 g2 sol1 : grid) (prim : option string) (out1 : outcome) :
  reachable prim -> Grid09 g1 ->
  getGridSolution g1 prim = Some out1 -> returned out1 = ReturnGrid sol1 ->
  Grid09 g2 -> conflict_free g2 = true ->
  (forall h, is_solution h -> keeps_clues g2 h = true -> False) ->
  getGridSolution g2 (st_prim (final out1))
  = Some (Outcome (ReturnGrid sol1) (Store g2 (st_prim (final out1))) []).
Proof.
  intros Hreach Hg1 Hcall Hret Hg2 Hfree Hnone.
  destruct (returned_grid_snapshot g1 prim out1 sol1 Hg1
              (reachable_snapshot_ok prim Hreach) Hcall Hret) as (H19 & Hvalid & Hsnap).
  destruct (getGridSolution_cases g1 prim) as (out & Hout & Hfinal & _).
  cbn zeta in Hout, Hfinal. rewrite Hcall in Hout. injection Hout as <-.
  rewrite Hfinal. cbn [st_prim]. rewrite Hsnap.
  assert (Hnil : completions g2 = []).
  { destruct (completions g2) as [|h t] eqn:Hc; [reflexivity|]. exfalso.
    assert (Hin : In h (completions g2)) by (rewrite Hc; left; reflexivity).
    apply (completions_are_solutions g2 h Hg2 Hfree) in Hin as [Hsol Hkeep].
    apply (Hnone h Hsol Hkeep). }
  rewrite (getGridSolution_none g2 _ Hnil).
  rewrite (gridToString_truthy sol1 H19). cbn [default from_option id].
  rewrite gridPrimitiveToArray_gridToString
    by (apply (grid_ok_weaken 1 9 0 9); [lia | lia | exact H19]).
  rewrite Hvalid. reflexivity.
Qed.

Lemma getGridSolution_returns_earlier_result_witness :
  reachable None /\ Grid09 oneBlank /\
  getGridSolution oneBlank None
    = Some (Outcome (ReturnGrid solved) (Store oneBlank (Some (gridToString solved))) []) /\
  Grid09 stuck /\ conflict_free stuck = true /\
  (forall h, is_solution h -> keeps_clues stuck h = true -> False) /\
  getGridSolution stuck (Some (gridToString solved))
  = Some (Outcome (ReturnGrid solved) (Store stuck (Some (gridToString solved))) []).
Proof.
  split; [apply reach_fresh|]. split; [reflexivity|].
  split; [vm_compute; reflexivity|]. split; [reflexivity|].
  split; [vm_compute; reflexivity|]. split; [exact stuck_no_solution|].
  apply (getGridSolution_returns_earlier_result oneBlank stuck solved None
           (Outcome (ReturnGrid solved) (Store oneBlank (Some (gridToString solved))) []));
    [apply reach_fresh | reflexivity | vm_compute; reflexivity | reflexivity
    | reflexivity | vm_compute; reflexivity | exact stuck_no_solution].
Defined.

(** X13.  Running [getGridSolution] on a grid it has returned gives that grid
    again, whatever [gridPrimitive] holds by then. *)
Theorem getGridSolution_idempotent
    (g sol : grid) (prim prim' : option string) (out : outcome) :
  reachable prim -> Grid09 g ->
  getGridSolution g prim = Some out -> returned out = ReturnGrid sol ->
  getGridSolution sol prim'
  = Some (Outcome (ReturnGrid sol) (Store sol (Some (gridToString sol))) []).
Proof.
  intros Hreach Hg Hcall Hret.
  destruct (returned_grid_snapshot g prim out sol Hg
              (reachable_snapshot_ok prim Hreach) Hcall Hret) as (H19 & Hvalid & _).
  rewrite (getGridSolution_last sol sol prim').
  - rewrite Hvalid. reflexivity.
  - apply (grid_ok_weaken 1 9 0 9); [lia | lia | exact H19].
  - unfold completions. rewrite (Grid19_no_empty sol H19). reflexivity.
Qed.

Lemma getGridSolution_idempotent_witness :
  reachable None /\ Grid09 twoWays /\
  getGridSolution twoWays None
    = Some (Outcome (ReturnGrid solved') (Store twoWays (Some (gridToString solved'))) []) /\
  getGridSolution solved' (Some "earlier"%string)
  = Some (Outcome (ReturnGrid solved') (Store solved' (Some (gridToString solved'))) []).
Proof.
  split; [apply reach_fresh|]. split; [reflexivity|]. split; [vm_compute; reflexivity|].
  apply (getGridSolution_idempotent twoWays solved' None (Some "earlier"%string)
           (Outcome (ReturnGrid solved') (Store twoWays (Some (gridToString solved'))) []));
    [apply reach_fresh | reflexivity | vm_compute; reflexivity | reflexivity].
Defined.

(** ** The pruning test is exact *)

(** A rejected digit is held by a peer of the target cell. *)
Lemma rejected_has_peer (g : grid) (n : Z) (r c : nat) :
  Grid09 g -> (r < 9)%nat -> (c < 9)%nat -> cell g r c = Int 0 -> n <> 0 ->
  isValidPlacement g (Int n) r c = false ->
  exists r' c', (r' < 9)%nat /\ (c' < 9)%nat /\ cell g r' c' = Int n /\
    peers (r, c) (r', c') = true.
Proof.
  intros Hg Hr Hc Hz Hn Hv. apply (isValidPlacement_false g n r c Hg Hr) in Hv.
  assert (Hne : forall r' c', cell g r' c' = Int n -> (r, c) <> (r', c')).
  { intros r' c' Hcell Heq. injection Heq as <- <-.
    rewrite Hz in Hcell. injection Hcell as <-. congruence. }
  destruct Hv as [(j & Hj & Hcell) | [(i & Hi & Hcell) | (i & j & Hi & Hj & Hcell)]].
  - exists r, j. repeat split; try assumption. apply peers_spec.
    cbn [fst snd]. split; [apply Hne; exact Hcell | auto].
  - exists i, c. repeat split; try assumption. apply peers_spec.
    cbn [fst snd]. split; [apply Hne; exact Hcell | auto].
  - pose proof (div3_bounds r). pose proof (div3_bounds c).
    exists i, j. split; [lia|]. split; [lia|]. split; [exact Hcell|].
    apply peers_spec. cbn [fst snd]. split; [apply Hne; exact Hcell|].
    right. right. split; symmetry; apply div3_unique; lia.
Qed.

(** X3.  On a grid whose filled cells are free of conflicts, [isValidPlacement]
    accepts a digit for an empty cell exactly when the grid with that digit
    written into the cell is still free of conflicts. *)
Theorem isValidPlacement_exact (g : grid) (n : Z) (row column : nat) :
  Grid09 g -> conflict_free g = true ->
  (row < 9)%nat -> (column < 9)%nat -> cell g row column = Int 0 -> 1 <= n <= 9 ->
  isValidPlacement g (Int n) row column
  = conflict_free (place g row column (Int n)).
Proof.
  intros Hg Hfree Hrow Hcolumn Hz Hn.
  destruct (isValidPlacement g (Int n) row column) eqn:Hv.
  - symmetry. apply conflict_free_place; assumption.
  - destruct (rejected_has_peer g n row column Hg Hrow Hcolumn Hz ltac:(lia) Hv)
      as (r' & c' & Hr' & Hc' & Hcell & Hpeers).
    destruct (conflict_free (place g row column (Int n))) eqn:Hfree'; [|reflexivity].
    rewrite conflict_free_spec in Hfree'.
    specialize (Hfree' (row, column) (r', c')). cbn [fst snd] in Hfree'.
    assert (Hlen : (column < length (row_of g row))%nat).
    { destruct (grid_ok_row 0 9 g row Hg Hrow) as (_ & Hl & _). lia. }
    rewrite cell_place_eq in Hfree' by exact Hlen.
    rewrite cell_place_ne in Hfree' by (apply peers_spec in Hpeers; tauto).
    rewrite Hcell, (proj2 (strict_eq_Int n (Int n)) eq_refl) in Hfree'.
    symmetry. apply Hfree'; try (apply positions_spec; lia); try exact Hpeers.
    intros H0. injection H0 as H0. lia.
Qed.

Lemma isValidPlacement_exact_witness :
  Grid09 twoWays /\ conflict_free twoWays = true /\
  (0 < 9)%nat /\ (3 < 9)%nat /\ cell twoWays 0 3 = Int 0 /\ 1 <= 5 <= 9 /\
  isValidPlacement twoWays (Int 5) 0 3 = conflict_free (place twoWays 0 3 (Int 5)).
Proof.
  split; [reflexivity|]. split; [vm_compute; reflexivity|].
  split; [lia|]. split; [lia|]. split; [reflexivity|]. split; [lia|].
  apply (isValidPlacement_exact twoWays 5 0 3);
    [reflexivity | vm_compute; reflexivity | lia | lia | reflexivity | lia].
Defined.
